(** * A local BM25 keyword index: [src/services/vectorDbService.js]

    The module keeps three variables ([storedDocs], [dfMap],
    [avgDocLength]) and exports [initializeVectorStore], [addDocuments]
    and [searchDocuments].  The development below embeds the module
    shallowly:

    - a JS string is its sequence of UTF-16 code units ([list N]);
    - a JS [Map] with string keys is a [gmap], a [Set] built from an array
      is the list of its first occurrences;
    - counts (term frequency, document frequency, lengths) are [nat];
    - a JS number that results from a division or from [Math.log] is a
      real number: the arithmetic is the exact one, rounding is left out;
      where the order of the additions of a score matters to the program,
      the statements keep the order in which the code adds;
    - the module variables are a record [State], each exported function is
      a computation of the monad [JS], which threads the state and may
      throw; the promise of an [async] function is its outcome, fulfilled
      ([Returned]) or rejected ([Thrown]);
    - what the functions print on the console is left out. *)

From Stdlib Require Import Reals Lra Lia String Ascii.
From stdpp Require Import gmap list sorting.

(** ** Strings *)

Definition jsstring := list N.
Definition token := list N.

(** A literal: the code units of an ASCII text. *)
Definition js (s : string) : jsstring :=
  map N_of_ascii (list_ascii_of_string s).

(** [String.prototype.toLowerCase], one code unit at a time, as far as the
    tokens can tell.  [A-Z] go to [a-z]; the two characters outside ASCII
    whose Unicode lower case has an ASCII letter are U+0130 (to [i]
    followed by U+0307) and U+212A, the Kelvin sign (to [k]).  The lower
    case of every other code unit outside ASCII stays outside ASCII, where
    the regular expression of [tokenize] sees a separator whatever the
    unit is: such a unit is kept as it is. *)
Definition lowerUnit (c : N) : list N :=
  if ((65 <=? c) && (c <=? 90))%N then [(c + 32)%N]
  else if (c =? 304)%N then [105%N; 775%N]
  else if (c =? 8490)%N then [107%N]
  else [c].

Definition toLowerCase (s : jsstring) : jsstring :=
  concat (map lowerUnit s).

(** The character class [[a-z0-9]]; the regular expression
    [/[^a-z0-9]+/g] matches a non-empty run of units outside it. *)
Definition isTokenChar (c : N) : bool :=
  (((97 <=? c) && (c <=? 122)) || ((48 <=? c) && (c <=? 57)))%N.

(** [s.split(/[^a-z0-9]+/g)].  [piece] is the substring between the end of
    the last match and the current position; [inMatch] says that the
    current position continues a match (the [+] is greedy).  A match that
    starts emits [piece], also when it is empty; the end of the string
    emits the last piece. *)
Fixpoint splitRe (inMatch : bool) (piece : jsstring) (s : jsstring)
  : list jsstring :=
  match s with
  | [] => [piece]
  | c :: s' =>
      if isTokenChar c then splitRe false (piece ++ [c]) s'
      else if inMatch then splitRe true [] s'
      else piece :: splitRe true [] s'
  end.

Definition split (s : jsstring) : list jsstring := splitRe false [] s.

(** [.filter(Boolean)]: a string is truthy when it is not empty. *)
Definition filterBoolean (l : list jsstring) : list jsstring :=
  filter (λ t : jsstring, t ≠ []) l.

(** [tokenize] on a string. *)
Definition tokenizeString (text : jsstring) : list token :=
  filterBoolean (split (toLowerCase text)).

(** ** Values and outcomes *)

(** What an entry of [documents], or a query, can be: a primitive value,
    a [String] object ([new String(s)]), or another object.  Of an object
    only the method [toLowerCase] matters here: [JsObject] has none,
    [JsLowerable v] has one that returns [v] and does nothing else. *)
Inductive JsValue :=
| JsString (s : jsstring)
| JsNull
| JsUndefined
| JsNumber (z : Z)
| JsBoolean (b : bool)
| JsStringObject (s : jsstring)
| JsObject
| JsLowerable (lowered : JsValue).

Inductive JsError := TypeError.

Inductive Outcome (A : Type) :=
| Returned (a : A)
| Thrown (e : JsError).
Arguments Returned {A} a.
Arguments Thrown {A} e.

(** [lowered.split(/[^a-z0-9]+/g).filter(Boolean)] on what the method
    [toLowerCase] of an object returned: a string or a [String] object is
    split; any other value has no method [split] here, and the call
    throws. *)
Definition splitLowered (lowered : JsValue) : Outcome (list token) :=
  match lowered with
  | JsString s | JsStringObject s => Returned (filterBoolean (split s))
  | _ => Thrown TypeError
  end.

(** [tokenize(text)].  The function does not test the type of [text]: it
    calls [text.toLowerCase()].  A string and a [String] object have the
    method of [String.prototype]; an object with a method of that name has
    its own; on [null] and [undefined] the property access throws, on a
    number, a boolean or an object without the method the call of
    [undefined] does. *)
Definition tokenize (text : JsValue) : Outcome (list token) :=
  match text with
  | JsString s | JsStringObject s => Returned (tokenizeString s)
  | JsLowerable lowered => splitLowered lowered
  | _ => Thrown TypeError
  end.

(** ** The tokenizer, as the specification words it *)

(** [Runs s ts]: [ts] is the ordered sequence of the maximal runs of
    units of the class in [s]; a unit outside the class separates. *)
Inductive Runs : jsstring → list token → Prop :=
| Runs_end : Runs [] []
| Runs_separator c s ts :
    isTokenChar c = false → Runs s ts → Runs (c :: s) ts
| Runs_token t s ts :
    t ≠ [] → Forall (λ c, isTokenChar c = true) t →
    (s = [] ∨ ∃ c s', s = c :: s' ∧ isTokenChar c = false) →
    Runs s ts → Runs (t ++ s) (t :: ts).

(** ** The data model *)

(** A stored record: [{ pageContent: text, tokens, termFreq }]. *)
Record Doc := {
  pageContent : JsValue;
  tokens : list token;
  termFreq : gmap token nat;
}.

(** The module variables [storedDocs], [dfMap] and [avgDocLength]. *)
Record State := {
  storedDocs : list Doc;
  dfMap : gmap token nat;
  avgDocLength : R;
}.

(** [let storedDocs = []; let dfMap = new Map(); let avgDocLength = 0;] *)
Definition initialState : State :=
  {| storedDocs := []; dfMap := ∅; avgDocLength := 0 |}.

(** [m.get(t) || 0]: [undefined] and [0] both give [0]. *)
Definition getOr0 (m : gmap token nat) (t : token) : nat :=
  default 0 (m !! t).

(** [m.set(t, (m.get(t) || 0) + 1)] *)
Definition increment (m : gmap token nat) (t : token) : gmap token nat :=
  <[t := getOr0 m t + 1]> m.

(** [for (const t of tokens) termFreq.set(t, (termFreq.get(t) || 0) + 1)],
    from [new Map()]. *)
Definition countTerms (toks : list token) : gmap token nat :=
  fold_left increment toks ∅.

(** [new Set(array)], as the sequence its iteration visits: the first
    occurrence of each element, in order. *)
Fixpoint newSet (l : list token) : list token :=
  match l with
  | [] => []
  | x :: l' => x :: filter (λ y, y ≠ x) (newSet l')
  end.

(** The record that both [initializeVectorStore] and [addDocuments] build
    from one entry of [documents]; it throws when [tokenize] does. *)
Definition makeRecord (text : JsValue) : Outcome Doc :=
  match tokenize text with
  | Returned toks =>
      Returned {| pageContent := text; tokens := toks;
                  termFreq := countTerms toks |}
  | Thrown e => Thrown e
  end.

(** ** Computations on the module state *)

Definition JS (A : Type) : Type := State → Outcome A * State.

Definition ret {A} (a : A) : JS A := λ s, (Returned a, s).

Definition bind {A B} (m : JS A) (f : A → JS B) : JS B :=
  λ s, match m s with
       | (Returned a, s') => f a s'
       | (Thrown e, s') => (Thrown e, s')
       end.

(** A pure computation that may throw, run inside a function. *)
Definition lift {A} (o : Outcome A) : JS A := λ s, (o, s).

(** [try { m } catch (error) { h }]: what [m] wrote before it threw stays
    written. *)
Definition tryCatch {A} (m : JS A) (h : JsError → JS A) : JS A :=
  λ s, match m s with
       | (Returned a, s') => (Returned a, s')
       | (Thrown e, s') => h e s'
       end.

Declare Scope js_scope.
Delimit Scope js_scope with js.
Notation "'let!' x ':=' m 'in' k" := (bind m (λ x, k))
  (at level 10, x name, m at level 200, k at level 200) : js_scope.
Notation "m ';;;' k" := (bind m (λ _, k))
  (at level 100, k at level 200, right associativity) : js_scope.

Definition readStoredDocs : JS (list Doc) := λ s, (Returned (storedDocs s), s).

(** The three variables, as a function that only reads them sees them. *)
Definition readState : JS State := λ s, (Returned s, s).

Definition writeStoredDocs (docs : list Doc) : JS unit :=
  λ s, (Returned (), {| storedDocs := docs; dfMap := dfMap s;
                         avgDocLength := avgDocLength s |}).
Definition writeDfMap (m : gmap token nat) : JS unit :=
  λ s, (Returned (), {| storedDocs := storedDocs s; dfMap := m;
                         avgDocLength := avgDocLength s |}).
Definition writeAvgDocLength (x : R) : JS unit :=
  λ s, (Returned (), {| storedDocs := storedDocs s; dfMap := dfMap s;
                         avgDocLength := x |}).

(** [for (const x of l) body] *)
Fixpoint forOf {A} (l : list A) (body : A → JS unit) : JS unit :=
  match l with
  | [] => ret ()
  | x :: l' => (body x ;;; forOf l' body)%js
  end.

(** [documents.map(f)] for an [f] that may throw: the first throw ends
    the call. *)
Fixpoint arrayMap {A B} (f : A → Outcome B) (l : list A) : Outcome (list B) :=
  match l with
  | [] => Returned []
  | x :: l' =>
      match f x with
      | Returned y =>
          match arrayMap f l' with
          | Returned ys => Returned (y :: ys)
          | Thrown e => Thrown e
          end
      | Thrown e => Thrown e
      end
  end.

(** *** [rebuildIndex] *)

(** One turn of the loop over [storedDocs], on the pair of the local
    [totalLength] and the map under construction. *)
Definition indexDoc (acc : gmap token nat * nat) (doc : Doc)
  : gmap token nat * nat :=
  let uniqueTokens := newSet (tokens doc) in
  let totalLength := (acc.2 + length (tokens doc))%nat in
  (fold_left increment uniqueTokens acc.1, totalLength).

Definition rebuildIndex : JS unit :=
  (let! docs := readStoredDocs in
   let acc := fold_left indexDoc docs (∅, 0%nat) in
   writeDfMap acc.1 ;;;
   writeAvgDocLength
     (if decide (0 < length docs)%nat
      then (INR acc.2 / INR (length docs))%R else 0%R))%js.

(** *** [initializeVectorStore] and [addDocuments] *)

(** [initializeVectorStore(documents = [])]: a call without argument is
    the call on [[]]. *)
Definition initializeVectorStore (documents : list JsValue) : JS bool :=
  tryCatch
    (let! docs := lift (arrayMap makeRecord documents) in
     writeStoredDocs docs ;;;
     rebuildIndex ;;;
     ret true)%js
    (λ _, ret false).

(** [storedDocs.push(d)] *)
Definition pushStoredDoc (d : Doc) : JS unit :=
  (let! docs := readStoredDocs in writeStoredDocs (docs ++ [d]))%js.

Definition addDocuments (documents : list JsValue) : JS unit :=
  (forOf documents (λ text,
     let! d := lift (makeRecord text) in pushStoredDoc d) ;;;
   rebuildIndex)%js.

(** *** [searchDocuments] *)

#[global] Instance Rlt_decision (x y : R) : Decision (x < y)%R := Rlt_dec x y.
#[global] Instance Rle_decision (x y : R) : Decision (x <= y)%R := Rle_dec x y.
#[global] Instance Req_decision (x y : R) : Decision (x = y) := Req_dec_T x y.

Definition k1 : R := 1.5.
Definition b : R := 0.75.

(** [x || 1] on a number. *)
Definition orOne (x : R) : R := if decide (x = 0%R) then 1%R else x.

(** [doc.tokens.length || 1] *)
Definition lengthOrOne (toks : list token) : nat :=
  if decide (length toks = 0%nat) then 1%nat else length toks.

(** The inner function [idf(term)]; [N] and [dfMap] are read from the
    enclosing call. *)
Definition idf (N : nat) (dfs : gmap token nat) (term : token) : R :=
  let df := getOr0 dfs term in
  ln (1 + (INR N - INR df + 0.5) / (INR df + 0.5)).

(** [tf + k1 * (1 - b + (b * dl) / (avgDocLength || 1))] *)
Definition denom (avg : R) (dl tf : nat) : R :=
  (INR tf + k1 * (1 - b + (b * INR dl) / orOne avg))%R.

(** One turn of [for (const qt of queryTokens)] on the local [score]. *)
Definition scoreStep (s : State) (doc : Doc) (score : R) (qt : token) : R :=
  let dl := lengthOrOne (tokens doc) in
  let tf := getOr0 (termFreq doc) qt in
  if decide (tf = 0%nat) then score
  else (score + idf (length (storedDocs s)) (dfMap s) qt
                * ((INR tf * (k1 + 1)) / denom (avgDocLength s) dl tf))%R.

Definition scoreDoc (s : State) (queryTokens : list token) (doc : Doc) : R :=
  fold_left (scoreStep s doc) queryTokens 0%R.

(** An element of [scored]: [{ doc, score }]. *)
Record Scored := { doc : Doc; score : R }.

(** An element of the result: [{ pageContent, score }]. *)
Record Hit := { hitPageContent : JsValue; hitScore : R }.

Definition toHit (e : Scored) : Hit :=
  {| hitPageContent := pageContent (doc e); hitScore := score e |}.

(** [array.sort(compare)].  ECMAScript leaves the algorithm open and fixes
    the result: the sort is stable, [x] goes before [y] when
    [compare(x, y) < 0] and equal elements keep their order.  Insertion
    from the right is one such sort. *)
Fixpoint insertSorted {A} (compare : A → A → R) (x : A) (l : list A) : list A :=
  match l with
  | [] => [x]
  | y :: l' =>
      if decide (compare x y <= 0)%R then x :: y :: l'
      else y :: insertSorted compare x l'
  end.

Fixpoint sort {A} (compare : A → A → R) (l : list A) : list A :=
  match l with
  | [] => []
  | x :: l' => insertSorted compare x (sort compare l')
  end.

(** [storedDocs.map((doc) => ...)], on the variables as the call reads
    them. *)
Definition scoreAll (s : State) (queryTokens : list token) : list Scored :=
  map (λ d, {| doc := d; score := scoreDoc s queryTokens d |}) (storedDocs s).

(** The comparison of [searchDocuments]: [(a, b) => b.score - a.score]. *)
Definition compareScores (x y : Scored) : R := (score y - score x)%R.

(** The tail of [searchDocuments], from [scored] on. *)
Definition rank (scored : list Scored) (k : nat) : list Hit :=
  let sorted := sort compareScores scored in
  map toHit (take k (filter (λ e, 0 < score e)%R sorted)).

Definition searchDocuments (query : JsValue) (k : nat) : JS (list Hit) :=
  (let! docs := readStoredDocs in
   if decide (length docs = 0%nat) then ret []
   else
     let! queryTokens := lift (tokenize query) in
     if decide (length queryTokens = 0%nat) then ret []
     else
       let! s := readState in
       ret (rank (scoreAll s queryTokens) k))%js.

(** [searchDocuments(query)]: [k = 5]. *)
Definition searchDocumentsDefault (query : JsValue) : JS (list Hit) :=
  searchDocuments query 5.

(** ** Runs of the module *)

Inductive Call :=
| CallInitialize (documents : list JsValue)
| CallAdd (documents : list JsValue)
| CallSearch (query : JsValue) (k : nat).

(** The state a call leaves, whether it returns or throws. *)
Definition after (s : State) (c : Call) : State :=
  match c with
  | CallInitialize documents => (initializeVectorStore documents s).2
  | CallAdd documents => (addDocuments documents s).2
  | CallSearch query k => (searchDocuments query k s).2
  end.

(** The states of the module: what a sequence of calls leaves, from the
    state in which the module is loaded. *)
Definition reachable (s : State) : Prop :=
  ∃ calls, s = fold_left after calls initialState.

(** ** Counting *)

(** The number of occurrences of [t] in [l]. *)
Definition occurrences (t : token) (l : list token) : nat :=
  length (filter (λ y, y = t) l).

(** The sum of a sequence of numbers. *)
Definition sumR (l : list R) : R := foldr Rplus 0%R l.

(** A map built by [increment] holds no [0]: a key is present exactly
    when its count is positive. *)
Definition positiveValues (m : gmap token nat) : Prop :=
  ∀ t n, m !! t = Some n → (0 < n)%nat.

(** ** The ranking function *)

(** What one query token adds to the score of a record. *)
Definition termScore (s : State) (d : Doc) (t : token) : R :=
  scoreStep s d 0%R t.

(** From the greatest score to the least. *)
Definition descending (l : list Scored) : Prop :=
  StronglySorted (λ x y, (score y <= score x)%R) l.

(** ** The statistics, as the specification words them *)

(** The number of records whose token set contains [t]. *)
Definition docCount (docs : list Doc) (t : token) : nat :=
  length (filter (λ d, t ∈ tokens d) docs).

(** The sum of [tokens.length] over the records. *)
Definition totalTokens (docs : list Doc) : nat :=
  foldr (λ d n, (length (tokens d) + n)%nat) 0%nat docs.

(** The mean of [tokens.length] over the records, [0] for no record. *)
Definition meanLength (docs : list Doc) : R :=
  match docs with
  | [] => 0%R
  | _ => (INR (totalTokens docs) / INR (length docs))%R
  end.

(** The statistics agree with the store: [dfMap] has exactly the tokens
    of the stored records as keys, each with the number of records that
    contain it, and [avgDocLength] is the mean length.  (The corpus size
    is not stored: [searchDocuments] reads [storedDocs.length].) *)
Definition consistent (s : State) : Prop :=
  (∀ t, dfMap s !! t
        = if decide (docCount (storedDocs s) t = 0%nat) then None
          else Some (docCount (storedDocs s) t))
  ∧ avgDocLength s = meanLength (storedDocs s).

(** The state with [storedDocs] replaced. *)
Definition withDocs (s : State) (docs : list Doc) : State :=
  {| storedDocs := docs; dfMap := dfMap s; avgDocLength := avgDocLength s |}.

(** The state [rebuildIndex] leaves on a store. *)
Definition rebuilt (docs : list Doc) : State :=
  let acc := fold_left indexDoc docs (∅, 0%nat) in
  {| storedDocs := docs; dfMap := acc.1;
     avgDocLength := if decide (0 < length docs)%nat
                     then (INR acc.2 / INR (length docs))%R else 0%R |}.

(** The records of the entries that precede the first one on which
    [makeRecord] throws. *)
Fixpoint builtBeforeThrow (l : list JsValue) : list Doc :=
  match l with
  | [] => []
  | x :: l' =>
      match makeRecord x with
      | Returned d => d :: builtBeforeThrow l'
      | Thrown _ => []
      end
  end.

(** A record that the module built. *)
Definition madeRecord (d : Doc) : Prop :=
  ∃ text, makeRecord text = Returned d.

(** What holds of the module variables in every state, also after a
    call that threw. *)
Definition wellFormed (s : State) : Prop :=
  Forall madeRecord (storedDocs s) ∧ (0 <= avgDocLength s)%R.

(** The state after [initializeVectorStore(["apple"])], and its record. *)
Definition appleDoc : Doc :=
  {| pageContent := JsString (js "apple"); tokens := [js "apple"];
     termFreq := countTerms [js "apple"] |}.

Definition appleState : State :=
  (initializeVectorStore [JsString (js "apple")] initialState).2.

(** The state after
    [initializeVectorStore(["apple banana", "banana"])]. *)
Definition fruitState : State :=
  (initializeVectorStore
     [JsString (js "apple banana"); JsString (js "banana")] initialState).2.

Definition appleBananaDoc : Doc :=
  {| pageContent := JsString (js "apple banana");
     tokens := [js "apple"; js "banana"];
     termFreq := countTerms [js "apple"; js "banana"] |}.

Definition bananaDoc : Doc :=
  {| pageContent := JsString (js "banana"); tokens := [js "banana"];
     termFreq := countTerms [js "banana"] |}.

(** ** A batch with an entry that is not a string *)

(** The state after [addDocuments(["apple", null])] on the module as
    loaded: the call throws at [null]. *)
Definition staleState : State :=
  (addDocuments [JsString (js "apple"); JsNull] initialState).2.

(** An entry on which [tokenize] throws. *)
Definition rejected (v : JsValue) : Prop := tokenize v = Thrown TypeError.

(** ** A scenario of the specification *)

(** The state after [initializeVectorStore(["apple banana",
    "banana cherry", "apple cherry"])]. *)
Definition scenarioState : State :=
  (initializeVectorStore
     [JsString (js "apple banana"); JsString (js "banana cherry");
      JsString (js "apple cherry")] initialState).2.

(** ** Entries, matches and totals *)

(** [typeof v === "string"] *)
Definition isString (v : JsValue) : Prop := ∃ str, v = JsString str.

(** An entry on which [tokenize] returns. *)
Definition accepted (v : JsValue) : Prop := ∃ toks, tokenize v = Returned toks.

(** A value on which [v.toLowerCase] is not a function: [null],
    [undefined], a number, a boolean, an object without the method. *)
Definition lacksToLowerCase (v : JsValue) : Prop :=
  match v with
  | JsNull | JsUndefined | JsNumber _ | JsBoolean _ | JsObject => True
  | _ => False
  end.

(** The record holds one of the query tokens. *)
Definition sharesToken (queryTokens : list token) (d : Doc) : Prop :=
  Exists (λ t, t ∈ tokens d) queryTokens.

#[global] Instance sharesToken_dec queryTokens d :
  Decision (sharesToken queryTokens d).
Proof. unfold sharesToken. apply _. Defined.

(** The sum of the values of a map of counts. *)
Definition totalCount (m : gmap token nat) : nat :=
  map_fold (λ _ n acc, (n + acc)%nat) 0%nat m.

(** No key of [dfMap] counts more records than the store has. *)
Definition frequenciesBounded (s : State) : Prop :=
  ∀ t, (getOr0 (dfMap s) t <= length (storedDocs s))%nat.

(** ** The tool that searches the index: [src/tools/vectorDbTool.js] *)

(** [array.join(separator)] on the texts of the elements. *)
Fixpoint join (separator : jsstring) (l : list jsstring) : jsstring :=
  match l with
  | [] => []
  | x :: l' =>
      match l' with
      | [] => x
      | _ => x ++ separator ++ join separator l'
      end
  end.

(** The text [join] gives an element: a string is itself, [null] and
    [undefined] are empty, a [String] object is its string, and an object
    that defines no [toString] is [[object Object]].  The text of a number
    is left to [numberToString]. *)
Definition elementText (numberToString : Z → jsstring) (v : JsValue)
  : jsstring :=
  match v with
  | JsString s | JsStringObject s => s
  | JsNull | JsUndefined => []
  | JsNumber z => numberToString z
  | JsBoolean true => js "true"
  | JsBoolean false => js "false"
  | JsObject | JsLowerable _ => js "[object Object]"
  end.

(** The separator of the tool, two line feeds. *)
Definition blankLine : jsstring := [10%N; 10%N].

(** What [func] is called with: a value of the kinds above, none of which
    has a property [query], or an object [{ query: v }]. *)
Inductive FuncArgument :=
| ArgValue (v : JsValue)
| ArgQuery (query : JsValue).

(** The parameter [{ query }] of [func]: the destructuring throws on
    [null] and [undefined], reads the property [query] of an object that
    has one, and gives [undefined] on any other value, a string
    included. *)
Definition destructureQuery (argument : FuncArgument) : Outcome JsValue :=
  match argument with
  | ArgQuery query => Returned query
  | ArgValue JsNull | ArgValue JsUndefined => Thrown TypeError
  | ArgValue _ => Returned JsUndefined
  end.

(** [func: async ({ query }) => { ... }]:
    [results.map(doc => doc.pageContent).join("\n\n")] on the result of
    [searchDocuments(query)]. *)
Definition vectorDbToolFunc (numberToString : Z → jsstring)
    (argument : FuncArgument) : JS jsstring :=
  (let! query := lift (destructureQuery argument) in
   let! results := searchDocumentsDefault query in
   ret (join blankLine
          (map (elementText numberToString) (map hitPageContent results))))%js.

(** The tool is a [DynamicTool]: it hands [func] the input string of the
    tool as it is. *)
Definition callTool (numberToString : Z → jsstring) (input : jsstring)
  : JS jsstring :=
  vectorDbToolFunc numberToString (ArgValue (JsString input)).

(** * Properties *)

Section tokenizer.

Lemma filterBoolean_cons_nil l : filterBoolean ([] :: l) = filterBoolean l.
Proof. unfold filterBoolean. rewrite filter_cons_False; [done | tauto]. Qed.

Lemma filterBoolean_cons t l :
  t ≠ [] → filterBoolean (t :: l) = t :: filterBoolean l.
Proof. intros H. unfold filterBoolean. by rewrite filter_cons_True. Qed.

(** The invariant of the scan: [piece] is a run of the class, and is
    empty inside a match. *)
Lemma splitRe_Runs s : ∀ inMatch piece,
  Forall (λ c, isTokenChar c = true) piece →
  (inMatch = true → piece = []) →
  Runs (piece ++ s) (filterBoolean (splitRe inMatch piece s)).
Proof.
  induction s as [|c s IH]; intros inMatch piece Hp Hm; simpl.
  - rewrite app_nil_r. destruct piece as [|x piece].
    + rewrite filterBoolean_cons_nil. constructor.
    + rewrite filterBoolean_cons by done.
      rewrite <- (app_nil_r (x :: piece)) at 1.
      apply Runs_token; [done | done | by left | constructor].
  - destruct (isTokenChar c) eqn:Hc.
    + replace (piece ++ c :: s) with ((piece ++ [c]) ++ s)
        by (by rewrite <- app_assoc).
      apply IH; [| done].
      apply Forall_app; split; [done | by constructor].
    + assert (Hrest : Runs (c :: s) (filterBoolean (splitRe true [] s))).
      { apply Runs_separator; [done |]. by apply (IH true []). }
      destruct inMatch.
      * by rewrite (Hm eq_refl).
      * destruct piece as [|x piece].
        -- by rewrite filterBoolean_cons_nil.
        -- rewrite filterBoolean_cons by done.
           apply Runs_token; [done | done | right; eauto | done].
Qed.

Lemma Runs_token_head t s t' s' :
  Forall (λ c, isTokenChar c = true) t →
  Forall (λ c, isTokenChar c = true) t' →
  (s = [] ∨ ∃ c r, s = c :: r ∧ isTokenChar c = false) →
  (s' = [] ∨ ∃ c r, s' = c :: r ∧ isTokenChar c = false) →
  t ++ s = t' ++ s' → t = t' ∧ s = s'.
Proof.
  revert t'. induction t as [|x t IH]; intros t' Ht Ht' Hs Hs' E.
  - destruct t' as [|y t']; [done |]. simpl in E.
    apply Forall_cons in Ht' as [Hy _].
    destruct Hs as [-> | (c & r & -> & Hc)]; [done |].
    injection E as -> _. congruence.
  - destruct t' as [|y t']; simpl in E.
    + apply Forall_cons in Ht as [Hx _].
      destruct Hs' as [-> | (c & r & -> & Hc)]; [done |].
      injection E as -> _. congruence.
    + injection E as -> E.
      apply Forall_cons in Ht as [_ Ht]. apply Forall_cons in Ht' as [_ Ht'].
      destruct (IH t' Ht Ht' Hs Hs' E) as [-> ->]. done.
Qed.

(** The runs of a string are determined by the string. *)
Lemma Runs_functional s ts : Runs s ts → ∀ ts', Runs s ts' → ts = ts'.
Proof.
  induction 1 as [|c s ts Hc _ IH|t s ts Hne Ht Hs _ IH]; intros ts' H'.
  - inversion H' as [|c' s' ts0 Hc' Hr E|t' s' ts0 Hne' Ht' Hs' Hr E]; [done |].
    destruct t'; [done | discriminate E].
  - inversion H' as [|c' s' ts0 Hc' Hr|t' s' ts0 Hne' Ht' Hs' Hr E]; subst.
    + by apply IH.
    + destruct t' as [|y t']; [done |]. injection E as -> _.
      apply Forall_cons in Ht' as [Hy _]. congruence.
  - inversion H' as [E|c' s' ts0 Hc' Hr E|t' s' ts0 Hne' Ht' Hs' Hr E].
    + destruct t; [done | discriminate E].
    + destruct t as [|y t]; [done |]. injection E as -> _.
      apply Forall_cons in Ht as [Hy _]. congruence.
    + symmetry in E.
      destruct (Runs_token_head _ _ _ _ Ht Ht' Hs Hs' E) as [-> ->].
      f_equal. by apply IH.
Qed.

Lemma tokenizeString_Runs text :
  Runs (toLowerCase text) (tokenizeString text).
Proof. apply (splitRe_Runs _ false []); [constructor | done]. Qed.

Lemma Runs_separators s :
  Forall (λ c, isTokenChar c = false) s → Runs s [].
Proof. induction 1; by constructor. Qed.

(** Every unit outside [[A-Za-z0-9]], U+0130 and U+212A apart, is its own
    lower case. *)
Lemma lowerUnit_separator c :
  isTokenChar c = false → ¬ (65 ≤ c ≤ 90)%N → c ≠ 304%N → c ≠ 8490%N →
  lowerUnit c = [c].
Proof.
  intros _ Hup H1 H2. unfold lowerUnit.
  destruct ((65 <=? c) && (c <=? 90))%N eqn:E.
  - apply andb_true_iff in E as [?%N.leb_le ?%N.leb_le]. lia.
  - destruct (N.eqb_spec c 304); [done |].
    destruct (N.eqb_spec c 8490); done.
Qed.

Lemma isTokenChar_ascii c : isTokenChar c = true → (c < 128)%N.
Proof.
  unfold isTokenChar. intros H.
  apply orb_true_iff in H as [H|H];
    apply andb_true_iff in H as [_ ?%N.leb_le]; lia.
Qed.

(** Two strings whose runs are known, the second not starting inside a
    run: the runs of their concatenation. *)
Lemma Runs_app s ts r tr :
  Runs s ts → Runs r tr →
  (r = [] ∨ ∃ c r', r = c :: r' ∧ isTokenChar c = false) →
  Runs (s ++ r) (ts ++ tr).
Proof.
  intros Hs Hr Hstart.
  induction Hs as [|c s ts Hc _ IH|t s ts Hne Ht Hnext _ IH]; simpl.
  - exact Hr.
  - by apply Runs_separator.
  - rewrite <- app_assoc. apply Runs_token; [done | done | | done].
    destruct Hnext as [->|(c & s' & -> & Hc)]; [exact Hstart |].
    right. by exists c, (s' ++ r).
Qed.

Lemma Runs_skip seps r tr :
  Forall (λ c, isTokenChar c = false) seps → Runs r tr → Runs (seps ++ r) tr.
Proof.
  intros Hseps Hr. induction Hseps as [|c seps Hc _ IH]; simpl; [done |].
  by apply Runs_separator.
Qed.

Lemma toLowerCase_app s1 s2 :
  toLowerCase (s1 ++ s2) = toLowerCase s1 ++ toLowerCase s2.
Proof. unfold toLowerCase. by rewrite map_app, concat_app. Qed.

Lemma lowerUnit_nonempty c : lowerUnit c ≠ [].
Proof.
  unfold lowerUnit.
  destruct ((65 <=? c) && (c <=? 90))%N; [done |].
  destruct (c =? 304)%N; [done |]. destruct (c =? 8490)%N; done.
Qed.

(** A unit whose lower case is outside the class splits the input. *)
Lemma tokenizeString_separator l1 c l2 :
  Forall (λ u, isTokenChar u = false) (lowerUnit c) →
  tokenizeString (l1 ++ c :: l2) = tokenizeString l1 ++ tokenizeString l2.
Proof.
  intros Hc. apply (Runs_functional (toLowerCase (l1 ++ c :: l2))).
  - apply tokenizeString_Runs.
  - rewrite toLowerCase_app.
    change (toLowerCase (c :: l2)) with (lowerUnit c ++ toLowerCase l2).
    apply Runs_app; [apply tokenizeString_Runs | |].
    + apply Runs_skip; [done | apply tokenizeString_Runs].
    + right. pose proof (lowerUnit_nonempty c) as Hne.
      destruct (lowerUnit c) as [|u us]; [done |].
      apply Forall_cons in Hc as [Hu _]. by exists u, (us ++ toLowerCase l2).
Qed.

End tokenizer.

Section counting.

Lemma occurrences_cons t x l :
  occurrences t (x :: l)
  = ((if decide (x = t) then 1 else 0) + occurrences t l)%nat.
Proof.
  unfold occurrences. destruct (decide (x = t)).
  - by rewrite filter_cons_True.
  - by rewrite filter_cons_False.
Qed.

Lemma occurrences_0 t l : occurrences t l = 0%nat ↔ t ∉ l.
Proof.
  induction l as [|x l IH].
  - split; [intros _; apply not_elem_of_nil | done].
  - rewrite occurrences_cons, not_elem_of_cons.
    destruct (decide (x = t)) as [->|Hne].
    + simpl. split; [lia | intros [H _]; done].
    + simpl. rewrite <- IH. split; [| tauto].
      intros H. split; [congruence | done].
Qed.

Lemma getOr0_increment m t u :
  getOr0 (increment m t) u
  = (getOr0 m u + (if decide (t = u) then 1 else 0))%nat.
Proof.
  unfold increment, getOr0. destruct (decide (t = u)) as [->|].
  - by rewrite lookup_insert_eq.
  - rewrite lookup_insert_ne by done. simpl. lia.
Qed.

Lemma getOr0_fold_increment l : ∀ m u,
  getOr0 (fold_left increment l m) u = (getOr0 m u + occurrences u l)%nat.
Proof.
  induction l as [|x l IH]; intros m u; simpl.
  - unfold occurrences. simpl. lia.
  - rewrite IH, getOr0_increment, occurrences_cons. lia.
Qed.

Lemma positiveValues_increment m t :
  positiveValues m → positiveValues (increment m t).
Proof.
  intros Hm u n. unfold increment.
  destruct (decide (t = u)) as [->|].
  - rewrite lookup_insert_eq. intros [= <-]. lia.
  - rewrite lookup_insert_ne by done. apply Hm.
Qed.

Lemma positiveValues_fold_increment l : ∀ m,
  positiveValues m → positiveValues (fold_left increment l m).
Proof.
  induction l as [|x l IH]; intros m Hm; simpl; [done |].
  apply IH. by apply positiveValues_increment.
Qed.

Lemma positiveValues_lookup m t :
  positiveValues m →
  m !! t = if decide (getOr0 m t = 0%nat) then None else Some (getOr0 m t).
Proof.
  intros Hm. unfold getOr0. destruct (m !! t) as [n|] eqn:E; simpl.
  - apply Hm in E. destruct (decide (n = 0%nat)); [lia | done].
  - done.
Qed.

(** The invariant of a record (data model): the keys of [termFreq] are
    the distinct tokens, each with its number of occurrences. *)
Lemma countTerms_occurrences toks t :
  getOr0 (countTerms toks) t = occurrences t toks.
Proof. unfold countTerms. rewrite getOr0_fold_increment. done. Qed.

Lemma newSet_elem_of l t : t ∈ newSet l ↔ t ∈ l.
Proof.
  induction l as [|x l IH]; simpl; [done |].
  rewrite !elem_of_cons, list_elem_of_filter, IH.
  destruct (decide (t = x)); tauto.
Qed.

Lemma occurrences_filter_ne t x l :
  occurrences t (filter (λ y, y ≠ x) l)
  = if decide (t = x) then 0%nat else occurrences t l.
Proof.
  unfold occurrences. rewrite list_filter_filter.
  destruct (decide (t = x)) as [->|Hne].
  - rewrite (list_filter_iff _ (λ _, False)); [| intros y; tauto].
    induction l as [|z l IH]; [done |]. by rewrite filter_cons_False by tauto.
  - f_equal. apply list_filter_iff. intros y. split; [tauto |].
    intros ->. done.
Qed.

(** Each element of a set occurs once in it. *)
Lemma occurrences_newSet t l :
  occurrences t (newSet l) = if decide (t ∈ l) then 1%nat else 0%nat.
Proof.
  induction l as [|x l IH]; simpl.
  - destruct (decide (t ∈ [])) as [H|]; [by apply elem_of_nil in H | done].
  - rewrite occurrences_cons, occurrences_filter_ne, IH.
    destruct (decide (x = t)) as [->|Hne].
    + rewrite decide_True by done.
      rewrite decide_True by apply list_elem_of_here. done.
    + rewrite (decide_False (P := t = x)) by done.
      destruct (decide (t ∈ l)) as [Hin|Hin].
      * rewrite decide_True by (by apply list_elem_of_further). done.
      * rewrite decide_False; [done |]. rewrite elem_of_cons.
        intros [->|?]; done.
Qed.

End counting.

Section ranking.

Open Scope R_scope.

Lemma scoreStep_termScore s d acc t :
  scoreStep s d acc t = acc + termScore s d t.
Proof.
  unfold termScore, scoreStep. simpl.
  destruct (decide (getOr0 (termFreq d) t = 0%nat)); lra.
Qed.

Lemma fold_scoreStep s d Q : ∀ acc,
  fold_left (scoreStep s d) Q acc = acc + sumR (map (termScore s d) Q).
Proof.
  induction Q as [|t Q IH]; intros acc; simpl; [lra |].
  rewrite IH, scoreStep_termScore. lra.
Qed.

(** The score is the sum of what each element of the token sequence
    adds. *)
Lemma scoreDoc_sum s Q d : scoreDoc s Q d = sumR (map (termScore s d) Q).
Proof. unfold scoreDoc. rewrite fold_scoreStep. lra. Qed.

Lemma termScore_absent s d t :
  getOr0 (termFreq d) t = 0%nat → termScore s d t = 0.
Proof.
  intros H. unfold termScore, scoreStep. simpl. by rewrite decide_True.
Qed.

Lemma termScore_present s d t :
  getOr0 (termFreq d) t ≠ 0%nat →
  termScore s d t
  = idf (length (storedDocs s)) (dfMap s) t
    * ((INR (getOr0 (termFreq d) t) * (k1 + 1))
       / denom (avgDocLength s) (lengthOrOne (tokens d))
           (getOr0 (termFreq d) t)).
Proof.
  intros H. unfold termScore, scoreStep. simpl.
  rewrite decide_False by done. lra.
Qed.

Lemma orOne_pos x : 0 <= x → 0 < orOne x.
Proof. unfold orOne. destruct (decide (x = 0)); lra. Qed.

Lemma orOne_nonzero x : orOne x ≠ 0.
Proof. unfold orOne. destruct (decide (x = 0)); lra. Qed.

Lemma INR_pos n : (0 < n)%nat → 0 < INR n.
Proof. intros H. apply (lt_INR 0). lia. Qed.

(** The denominator of a term that is scored is positive. *)
Lemma denom_pos avg dl tf :
  0 <= avg → (0 < tf)%nat → 0 < denom avg dl tf.
Proof.
  intros Havg Htf. unfold denom, k1, b.
  pose proof (INR_pos tf Htf) as Htf'.
  pose proof (pos_INR dl) as Hdl.
  pose proof (orOne_pos avg Havg) as Ho.
  assert (0 <= 0.75 * INR dl / orOne avg).
  { unfold Rdiv. apply Rmult_le_pos; [lra |].
    left. by apply Rinv_0_lt_compat. }
  lra.
Qed.

End ranking.

Section mutations.

Lemma docCount_cons d docs t :
  docCount (d :: docs) t
  = ((if decide (t ∈ tokens d) then 1 else 0) + docCount docs t)%nat.
Proof.
  unfold docCount. destruct (decide (t ∈ tokens d)).
  - by rewrite filter_cons_True.
  - by rewrite filter_cons_False.
Qed.

Lemma fold_indexDoc docs : ∀ m n,
  let acc := fold_left indexDoc docs (m, n) in
  (∀ t, getOr0 acc.1 t = (getOr0 m t + docCount docs t)%nat)
  ∧ acc.2 = (n + totalTokens docs)%nat
  ∧ (positiveValues m → positiveValues acc.1).
Proof.
  induction docs as [|d docs IH]; intros m n; cbn [fold_left].
  - split; [| split]; [| simpl; lia | done].
    intros t. unfold docCount. simpl. lia.
  - change (indexDoc (m, n) d)
      with (fold_left increment (newSet (tokens d)) m,
            (n + length (tokens d))%nat).
    destruct (IH (fold_left increment (newSet (tokens d)) m)
                (n + length (tokens d))%nat) as (Hdf & Htot & Hpos).
    split; [| split].
    + intros t. rewrite Hdf.
      rewrite getOr0_fold_increment, occurrences_newSet, docCount_cons. lia.
    + rewrite Htot. simpl. lia.
    + intros Hm. apply Hpos. by apply positiveValues_fold_increment.
Qed.

Lemma rebuildIndex_rebuilt s :
  rebuildIndex s = (Returned (), rebuilt (storedDocs s)).
Proof. reflexivity. Qed.

(** [rebuildIndex] recomputes the statistics of the store, whatever
    they were. *)
Lemma rebuilt_consistent docs : consistent (rebuilt docs).
Proof.
  destruct (fold_indexDoc docs ∅ 0%nat) as (Hdf & Htot & Hpos).
  split; simpl.
  - intros t. rewrite (positiveValues_lookup _ t) by (by apply Hpos).
    rewrite Hdf. unfold getOr0. rewrite lookup_empty. done.
  - rewrite Htot. change (0 + totalTokens docs)%nat with (totalTokens docs).
    destruct (decide (0 < length docs)%nat) as [H|H];
      destruct docs as [|d docs]; simpl in H; try lia; done.
Qed.

Lemma rebuilt_storedDocs docs : storedDocs (rebuilt docs) = docs.
Proof. reflexivity. Qed.

Lemma rebuilt_avg_nonneg docs : (0 <= avgDocLength (rebuilt docs))%R.
Proof.
  simpl. destruct (decide (0 < length docs)%nat) as [H|]; [| lra].
  unfold Rdiv. apply Rmult_le_pos; [apply pos_INR |].
  left. apply Rinv_0_lt_compat. by apply INR_pos.
Qed.

Lemma arrayMap_builtBeforeThrow l ds :
  arrayMap makeRecord l = Returned ds → builtBeforeThrow l = ds.
Proof.
  revert ds. induction l as [|x l IH]; intros ds; simpl.
  - by intros [= <-].
  - destruct (makeRecord x) as [d|e]; [| done].
    destruct (arrayMap makeRecord l) as [ds'|e]; [| done].
    intros [= <-]. f_equal. by apply IH.
Qed.

(** The loop of [addDocuments]: every entry before the first throw has
    pushed its record. *)
Lemma forOf_push l : ∀ s,
  forOf l (λ text, let! d := lift (makeRecord text) in pushStoredDoc d)%js s
  = (match arrayMap makeRecord l with
     | Returned _ => Returned ()
     | Thrown e => Thrown e
     end,
     withDocs s (storedDocs s ++ builtBeforeThrow l)).
Proof.
  induction l as [|x l IH]; intros s; simpl.
  - unfold ret, withDocs. rewrite app_nil_r. by destruct s.
  - unfold bind at 1. unfold bind at 1. unfold lift at 1.
    destruct (makeRecord x) as [d|e]; simpl.
    + rewrite IH. simpl. rewrite <- app_assoc. simpl.
      destruct (arrayMap makeRecord l); done.
    + unfold withDocs. rewrite app_nil_r. by destruct s.
Qed.

Lemma addDocuments_unfold l s :
  addDocuments l s
  = match arrayMap makeRecord l with
    | Returned ds => (Returned (), rebuilt (storedDocs s ++ ds))
    | Thrown e => (Thrown e, withDocs s (storedDocs s ++ builtBeforeThrow l))
    end.
Proof.
  unfold addDocuments. unfold bind at 1. rewrite forOf_push.
  destruct (arrayMap makeRecord l) as [ds|e] eqn:E; [| done].
  rewrite rebuildIndex_rebuilt. simpl.
  by rewrite (arrayMap_builtBeforeThrow _ _ E).
Qed.

Lemma initializeVectorStore_unfold l s :
  initializeVectorStore l s
  = match arrayMap makeRecord l with
    | Returned ds => (Returned true, rebuilt ds)
    | Thrown _ => (Returned false, s)
    end.
Proof.
  unfold initializeVectorStore, tryCatch, bind, lift.
  destruct (arrayMap makeRecord l); reflexivity.
Qed.

Lemma searchDocuments_state query k s : (searchDocuments query k s).2 = s.
Proof.
  unfold searchDocuments, bind, readStoredDocs, readState, lift, ret.
  destruct (decide (length (storedDocs s) = 0%nat)); [done |].
  destruct (tokenize query) as [toks|e]; [| done].
  destruct (decide (length toks = 0%nat)); done.
Qed.

Lemma arrayMap_madeRecord l ds :
  arrayMap makeRecord l = Returned ds → Forall madeRecord ds.
Proof.
  revert ds. induction l as [|x l IH]; intros ds; simpl.
  - intros [= <-]. constructor.
  - destruct (makeRecord x) as [d|e] eqn:E; [| done].
    destruct (arrayMap makeRecord l) as [ds'|e]; [| done].
    intros [= <-]. constructor; [by exists x | by apply IH].
Qed.

Lemma builtBeforeThrow_madeRecord l : Forall madeRecord (builtBeforeThrow l).
Proof.
  induction l as [|x l IH]; simpl; [constructor |].
  destruct (makeRecord x) as [d|e] eqn:E; constructor; [by exists x | done].
Qed.

Lemma after_wellFormed s c : wellFormed s → wellFormed (after s c).
Proof.
  intros [Hdocs Havg]. destruct c as [l|l|q k]; simpl.
  - rewrite initializeVectorStore_unfold.
    destruct (arrayMap makeRecord l) as [ds|e] eqn:E; simpl; [| done].
    split; [by eapply arrayMap_madeRecord | apply rebuilt_avg_nonneg].
  - rewrite addDocuments_unfold.
    destruct (arrayMap makeRecord l) as [ds|e] eqn:E; simpl.
    + split; [| apply rebuilt_avg_nonneg]. rewrite rebuilt_storedDocs.
      apply Forall_app; split; [done | by eapply arrayMap_madeRecord].
    + split; [| done]. simpl.
      apply Forall_app; split; [done | apply builtBeforeThrow_madeRecord].
  - by rewrite searchDocuments_state.
Qed.

Lemma reachable_wellFormed s : reachable s → wellFormed s.
Proof.
  intros [calls ->]. induction calls as [|c calls IH] using rev_ind.
  - split; simpl; [constructor | lra].
  - rewrite fold_left_app. simpl. by apply after_wellFormed.
Qed.

Lemma madeRecord_termFreq d t :
  madeRecord d → getOr0 (termFreq d) t = occurrences t (tokens d).
Proof.
  intros [text H]. unfold makeRecord in H.
  destruct (tokenize text) as [toks|e]; [| done].
  injection H as <-. simpl. apply countTerms_occurrences.
Qed.

Lemma consistent_getOr0 s t :
  consistent s → getOr0 (dfMap s) t = docCount (storedDocs s) t.
Proof.
  intros [Hdf _]. unfold getOr0. rewrite Hdf.
  destruct (decide (docCount (storedDocs s) t = 0%nat)) as [->|]; done.
Qed.

Lemma consistent_frequenciesBounded s : consistent s → frequenciesBounded s.
Proof.
  intros Hs t. rewrite consistent_getOr0 by done. apply length_filter.
Qed.

Lemma after_frequenciesBounded s c :
  frequenciesBounded s → frequenciesBounded (after s c).
Proof.
  intros Hs. destruct c as [l|l|q k]; simpl.
  - rewrite initializeVectorStore_unfold.
    destruct (arrayMap makeRecord l); simpl; [| done].
    apply consistent_frequenciesBounded, rebuilt_consistent.
  - rewrite addDocuments_unfold.
    destruct (arrayMap makeRecord l); simpl.
    + apply consistent_frequenciesBounded, rebuilt_consistent.
    + intros t. simpl. rewrite length_app. specialize (Hs t). lia.
  - by rewrite searchDocuments_state.
Qed.

Lemma reachable_frequenciesBounded s : reachable s → frequenciesBounded s.
Proof.
  intros [calls ->]. induction calls as [|c calls IH] using rev_ind.
  - intros t. simpl. unfold getOr0. rewrite lookup_empty. simpl. lia.
  - rewrite fold_left_app. simpl. by apply after_frequenciesBounded.
Qed.

End mutations.

(** ** The tokenizer *)

Example tokenize_sentence :
  tokenizeString (js "Pinecone is a vector database.")
  = [js "pinecone"; js "is"; js "a"; js "vector"; js "database"].
Proof. reflexivity. Qed.

Example tokenize_separators_at_both_ends :
  split (toLowerCase (js ", A-b,")) = [js ""; js "a"; js "b"; js ""]
  ∧ tokenizeString (js ", A-b,") = [js "a"; js "b"].
Proof. split; reflexivity. Qed.

Example tokenize_empty_string :
  split (toLowerCase (js "")) = [js ""] ∧ tokenizeString (js "") = [].
Proof. split; reflexivity. Qed.

Example tokenize_non_ascii :
  tokenizeString (js "caf" ++ [233%N] ++ js " au lait")
  = [js "caf"; js "au"; js "lait"].
Proof. reflexivity. Qed.

(** C9, as the code has it.  [tokenize] is total on strings and returns
    the ordered sequence of the maximal runs of units of [[a-z0-9]] of the
    lower-cased input, which that input determines.  A unit of the input
    whose lower case is outside the class splits the input; so does every
    unit outside ASCII other than U+0130 and U+212A; and an input whose
    lower case has no unit of the class (the empty string, punctuation
    only) gives no token. *)
Theorem tokenize_maximal_runs (text : jsstring) :
  ∃ toks,
    tokenize (JsString text) = Returned toks
    ∧ Runs (toLowerCase text) toks
    ∧ (∀ toks', Runs (toLowerCase text) toks' → toks' = toks)
    ∧ (∀ l1 c l2,
         text = l1 ++ c :: l2 →
         Forall (λ u, isTokenChar u = false) (lowerUnit c) →
         toks = tokenizeString l1 ++ tokenizeString l2)
    ∧ (∀ c, (128 ≤ c)%N → c ≠ 304%N → c ≠ 8490%N →
            Forall (λ u, isTokenChar u = false) (lowerUnit c))
    ∧ (Forall (λ c, isTokenChar c = false) (toLowerCase text) → toks = []).
Proof.
  exists (tokenizeString text).
  pose proof (tokenizeString_Runs text) as Hruns.
  split; [done |]. split; [done |]. split; [| split; [| split]].
  - intros toks' H'. by apply (Runs_functional _ _ H').
  - intros l1 c l2 -> Hc. by apply tokenizeString_separator.
  - intros c Hc H1 H2.
    assert (Hsep : isTokenChar c = false).
    { destruct (isTokenChar c) eqn:E; [| done].
      apply isTokenChar_ascii in E. lia. }
    rewrite lowerUnit_separator by (done || lia). by constructor.
  - intros Hsep. apply (Runs_functional _ _ Hruns). by apply Runs_separators.
Qed.

Lemma tokenize_maximal_runs_witness :
  ∃ toks,
    tokenize (JsString (js "caf" ++ 233%N :: js " au lait")) = Returned toks
    ∧ toks = tokenizeString (js "caf") ++ tokenizeString (js " au lait").
Proof.
  destruct (tokenize_maximal_runs (js "caf" ++ 233%N :: js " au lait"))
    as (toks & Htoks & _ & _ & Hsplit & Hunit & _).
  exists toks. split; [exact Htoks |].
  apply (Hsplit (js "caf") 233%N (js " au lait")); [reflexivity |].
  apply Hunit; lia.
Defined.

(** C9, as it is stated, fails on two characters outside ASCII.  U+212A,
    the Kelvin sign, lower-cases to [k]: alone it is a token, and between
    two digits it joins them where a separator would split them.  U+0130
    lower-cases to [i] followed by U+0307: it starts a token. *)
Lemma kelvin_sign_is_a_letter :
  (128 ≤ 8490)%N
  ∧ tokenize (JsString [8490%N]) = Returned [js "k"]
  ∧ tokenizeString (js "5" ++ 8490%N :: js "5") = [js "5k5"]
  ∧ tokenizeString (js "5") ++ tokenizeString (js "5") = [js "5"; js "5"]
  ∧ tokenizeString (304%N :: js "stanbul") = [js "i"; js "stanbul"].
Proof. repeat split; (lia || reflexivity). Qed.

(** ** Search on an empty store or with an empty query *)

Lemma searchDocuments_empty_store query k s :
  storedDocs s = [] → searchDocuments query k s = (Returned [], s).
Proof.
  intros H. unfold searchDocuments, bind, readStoredDocs.
  rewrite H. reflexivity.
Qed.

Lemma searchDocuments_ranks (q : jsstring) k s :
  storedDocs s ≠ [] → tokenizeString q ≠ [] →
  searchDocuments (JsString q) k s
  = (Returned (rank (scoreAll s (tokenizeString q)) k), s).
Proof.
  intros Hs Hq.
  unfold searchDocuments, bind, readStoredDocs, readState, lift, ret; simpl.
  destruct (decide (length (storedDocs s) = 0%nat)) as [E|_].
  { destruct (storedDocs s); [done | discriminate E]. }
  destruct (decide (length (tokenizeString q) = 0%nat)) as [E|_]; [| done].
  destruct (tokenizeString q); [done | discriminate E].
Qed.

Lemma searchDocuments_empty_query (q : jsstring) k s :
  tokenizeString q = [] → searchDocuments (JsString q) k s = (Returned [], s).
Proof.
  intros Hq.
  unfold searchDocuments, bind, readStoredDocs, readState, lift, ret; simpl.
  destruct (decide (length (storedDocs s) = 0%nat)); [done |].
  rewrite Hq. reflexivity.
Qed.

(** C7. When the query has no token, or the store is empty (as it is
    before any call of [initializeVectorStore]), [searchDocuments]
    returns the empty sequence: it does not throw. *)
Theorem search_empty (s : State) (q : jsstring) (k : nat) :
  tokenizeString q = [] ∨ storedDocs s = [] →
  searchDocuments (JsString q) k s = (Returned [], s).
Proof.
  intros [Hq|Hs].
  - by apply searchDocuments_empty_query.
  - by apply searchDocuments_empty_store.
Qed.

Lemma search_empty_witness :
  (tokenizeString (js "?! ...") = [] ∨ storedDocs initialState = [])
  ∧ searchDocuments (JsString (js "?! ...")) 5 initialState
    = (Returned [], initialState).
Proof.
  split; [left; reflexivity |].
  apply (search_empty initialState (js "?! ...") 5). left. reflexivity.
Defined.

(** ** Search does not write *)

(** C10. [searchDocuments] leaves [storedDocs], [dfMap] and
    [avgDocLength] as they were, whether it returns or throws; so does
    any sequence of searches. *)
Theorem search_read_only (s : State) :
  (∀ query k, (searchDocuments query k s).2 = s)
  ∧ (∀ searches : list (JsValue * nat),
       fold_left after (map (λ qk, CallSearch qk.1 qk.2) searches) s = s).
Proof.
  split; [intros; apply searchDocuments_state |].
  intros searches. induction searches as [|[q k] l IH]; simpl; [done |].
  by rewrite searchDocuments_state.
Qed.

(** ** The BM25 formula *)

Section bm25.

Open Scope R_scope.

Lemma lengthOrOne_present d t :
  madeRecord d → getOr0 (termFreq d) t ≠ 0%nat →
  lengthOrOne (tokens d) = length (tokens d).
Proof.
  intros Hd Htf. rewrite (madeRecord_termFreq _ _ Hd) in Htf.
  unfold lengthOrOne.
  destruct (decide (length (tokens d) = 0%nat)) as [E|]; [| done].
  destruct (tokens d); [| discriminate E]. done.
Qed.

Lemma idf_argument N df :
  1 + (INR N - INR df + 0.5) / (INR df + 0.5) = (INR N + 1) / (INR df + 0.5).
Proof.
  pose proof (pos_INR df). replace 0.5 with (/ 2) by lra. field. lra.
Qed.

(** The weight of a token does not grow with its document frequency. *)
Lemma idf_antitone N dfs t1 t2 :
  (getOr0 dfs t1 < getOr0 dfs t2)%nat → idf N dfs t2 < idf N dfs t1.
Proof.
  intros Hlt. unfold idf. cbv zeta. rewrite !idf_argument.
  apply lt_INR in Hlt.
  pose proof (pos_INR (getOr0 dfs t1)) as H1.
  pose proof (pos_INR N) as HN.
  assert (Hinv : / (INR (getOr0 dfs t2) + 0.5) < / (INR (getOr0 dfs t1) + 0.5)).
  { apply Rinv_lt_contravar; [| lra]. apply Rmult_lt_0_compat; lra. }
  assert (Hpos : 0 < / (INR (getOr0 dfs t2) + 0.5)).
  { apply Rinv_0_lt_compat. lra. }
  apply ln_increasing; unfold Rdiv.
  - apply Rmult_lt_0_compat; lra.
  - apply Rmult_lt_compat_l; lra.
Qed.

(** The weight of a token that no more than [N] records contain is
    positive. *)
Lemma idf_pos N dfs t : (getOr0 dfs t <= N)%nat → 0 < idf N dfs t.
Proof.
  intros Hle. unfold idf. cbv zeta. rewrite idf_argument.
  apply le_INR in Hle. pose proof (pos_INR (getOr0 dfs t)) as H1.
  rewrite <- ln_1. apply ln_increasing; [lra |].
  apply Rmult_lt_reg_r with (INR (getOr0 dfs t) + 0.5); [lra |].
  unfold Rdiv. rewrite Rmult_assoc, Rinv_l by lra. lra.
Qed.

Lemma termScore_pos s d t :
  0 <= avgDocLength s → getOr0 (termFreq d) t ≠ 0%nat →
  (getOr0 (dfMap s) t <= length (storedDocs s))%nat →
  0 < termScore s d t.
Proof.
  intros Havg Htf Hdf. rewrite termScore_present by done.
  assert (Htf' : (0 < getOr0 (termFreq d) t)%nat) by lia.
  apply Rmult_lt_0_compat; [by apply idf_pos |].
  unfold Rdiv. apply Rmult_lt_0_compat.
  - apply Rmult_lt_0_compat; [by apply INR_pos | unfold k1; lra].
  - apply Rinv_0_lt_compat. by apply denom_pos.
Qed.

Lemma appleState_termScore_pos : 0 < termScore appleState appleDoc (js "apple").
Proof.
  apply termScore_pos.
  - vm_compute. lra.
  - vm_compute. lia.
  - vm_compute. lia.
Qed.

(** Each turn of the loop adds to the score what the token scores
    alone. *)
Lemma scoreDoc_snoc s Q t d :
  scoreDoc s (Q ++ [t]) d = scoreDoc s Q d + termScore s d t.
Proof.
  unfold scoreDoc. rewrite fold_left_app. simpl. apply scoreStep_termScore.
Qed.

Lemma scoreDoc_singleton s t d : scoreDoc s [t] d = termScore s d t.
Proof. unfold scoreDoc, termScore. reflexivity. Qed.

(** What a token that the record holds adds, with a positive average
    length: the two [|| 1] of the code are not taken. *)
Lemma termScore_formula s d t :
  madeRecord d → 0 < avgDocLength s → getOr0 (termFreq d) t ≠ 0%nat →
  termScore s d t
  = ln (1 + (INR (length (storedDocs s)) - INR (getOr0 (dfMap s) t) + 0.5)
            / (INR (getOr0 (dfMap s) t) + 0.5))
    * ((INR (getOr0 (termFreq d) t) * (1.5 + 1))
       / (INR (getOr0 (termFreq d) t)
          + 1.5 * (1 - 0.75 + (0.75 * INR (length (tokens d)))
                              / avgDocLength s))).
Proof.
  intros Hd Havg Htf. rewrite termScore_present by done.
  rewrite (lengthOrOne_present d t) by done.
  unfold idf, denom, orOne, k1, b. by rewrite decide_False by lra.
Qed.

End bm25.

(** C4, as the code has it.  With a positive average length, each
    occurrence in the query of a token [t] that the record [d] holds
    [tf > 0] times adds
    [idf(t) * (tf * (k1 + 1)) / (tf + k1 * (1 - b + b * |d.tokens| / avg))]
    to the score of [d], where
    [idf(t) = ln (1 + (N - df + 0.5) / (df + 0.5))], [k1 = 1.5],
    [b = 0.75], [N] is the number of stored records and [df], [tf] are
    [0] for an absent key; an occurrence of a token with [tf = 0] adds
    nothing.  The score starts at [0], so the score against the query
    [t] alone is the formula.  The products and quotients are grouped as
    the code groups them. *)
Theorem bm25_term_contribution
    (s : State) (d : Doc) (t : token) (Q : list token) :
  madeRecord d → (0 < avgDocLength s)%R →
  let tf := getOr0 (termFreq d) t in
  let df := getOr0 (dfMap s) t in
  let corpusSize := length (storedDocs s) in
  let idf_t := ln (1 + (INR corpusSize - INR df + 0.5) / (INR df + 0.5)) in
  let contribution :=
    (idf_t * ((INR tf * (1.5 + 1))
              / (INR tf + 1.5 * (1 - 0.75 + (0.75 * INR (length (tokens d)))
                                            / avgDocLength s))))%R in
  scoreDoc s [] d = 0%R
  ∧ ((0 < tf)%nat →
     scoreDoc s (Q ++ [t]) d = (scoreDoc s Q d + contribution)%R
     ∧ scoreDoc s [t] d = contribution)
  ∧ (tf = 0%nat →
     scoreDoc s (Q ++ [t]) d = scoreDoc s Q d ∧ scoreDoc s [t] d = 0%R).
Proof.
  intros Hd Havg tf df corpusSize idf_t contribution.
  split; [reflexivity |]. split.
  - intros Htf.
    assert (Hterm : termScore s d t = contribution).
    { apply termScore_formula; [done | done | fold tf; lia]. }
    by rewrite scoreDoc_snoc, scoreDoc_singleton, Hterm.
  - intros Htf.
    assert (Hterm : termScore s d t = 0%R) by (by apply termScore_absent).
    rewrite scoreDoc_snoc, scoreDoc_singleton, Hterm. split; [lra | done].
Qed.

Lemma bm25_term_contribution_witness :
  madeRecord appleDoc
  ∧ (0 < avgDocLength appleState)%R
  ∧ (0 < getOr0 (termFreq appleDoc) (js "apple"))%nat
  ∧ scoreDoc appleState [js "apple"] appleDoc
    = (ln (1 + (INR 1 - INR 1 + 0.5) / (INR 1 + 0.5))
       * ((INR 1 * (1.5 + 1))
          / (INR 1 + 1.5 * (1 - 0.75 + (0.75 * INR 1)
                                        / avgDocLength appleState))))%R
  ∧ scoreDoc appleState ([js "banana"; js "apple"] ++ [js "apple"]) appleDoc
    = (scoreDoc appleState [js "banana"; js "apple"] appleDoc
       + ln (1 + (INR 1 - INR 1 + 0.5) / (INR 1 + 0.5))
         * ((INR 1 * (1.5 + 1))
            / (INR 1 + 1.5 * (1 - 0.75 + (0.75 * INR 1)
                                          / avgDocLength appleState))))%R.
Proof.
  assert (Hd : madeRecord appleDoc).
  { exists (JsString (js "apple")). reflexivity. }
  assert (Havg : (0 < avgDocLength appleState)%R).
  { vm_compute. lra. }
  assert (Htf : (0 < getOr0 (termFreq appleDoc) (js "apple"))%nat).
  { vm_compute. lia. }
  split; [exact Hd |]. split; [exact Havg |]. split; [exact Htf |].
  destruct (bm25_term_contribution appleState appleDoc (js "apple")
              [js "banana"; js "apple"] Hd Havg) as (_ & Hpresent & _).
  destruct (Hpresent Htf) as [Hsnoc Hone].
  split; [exact Hone | exact Hsnoc].
Defined.

(** C4, as it is stated, fails on a token that the query repeats: against
    the query [apple apple], whose one distinct token is [apple], the
    record of ["apple"] scores twice the formula, which is not [0]. *)
Lemma repeated_token_contributes_twice :
  let s := appleState in
  let d := appleDoc in
  let t := js "apple" in
  let tf := getOr0 (termFreq d) t in
  let df := getOr0 (dfMap s) t in
  let corpusSize := length (storedDocs s) in
  let idf_t := ln (1 + (INR corpusSize - INR df + 0.5) / (INR df + 0.5)) in
  let formula :=
    (idf_t * (INR tf * (1.5 + 1))
     / (INR tf + 1.5 * (1 - 0.75 + 0.75 * INR (length (tokens d))
                                   / avgDocLength s)))%R in
  (0 < avgDocLength s)%R ∧ (0 < tf)%nat
  ∧ newSet (tokenizeString (js "apple apple")) = [t]
  ∧ scoreDoc s (tokenizeString (js "apple apple")) d = (2 * formula)%R
  ∧ scoreDoc s (tokenizeString (js "apple apple")) d ≠ formula.
Proof.
  intros s d t tf df corpusSize idf_t formula.
  assert (Hd : madeRecord d) by (exists (JsString (js "apple")); reflexivity).
  assert (Havg : (0 < avgDocLength s)%R) by (vm_compute; lra).
  assert (Htf : (0 < tf)%nat) by (vm_compute; lia).
  assert (Hterm : termScore s d t = formula).
  { rewrite termScore_formula by (done || vm_compute; lia).
    fold tf df corpusSize idf_t. unfold formula, Rdiv. ring. }
  assert (Hscore : scoreDoc s (tokenizeString (js "apple apple")) d
                   = (2 * formula)%R).
  { change (tokenizeString (js "apple apple")) with ([t] ++ [t]).
    rewrite scoreDoc_snoc, scoreDoc_singleton, Hterm. lra. }
  split; [exact Havg |]. split; [exact Htf |]. split; [reflexivity |].
  split; [exact Hscore |].
  pose proof appleState_termScore_pos as Hpos. fold s d t in Hpos.
  rewrite Hscore. rewrite Hterm in Hpos. lra.
Qed.

(** C6. In a state of the module, if fewer records contain [t1] than
    [t2], then a record scored against [t1] alone scores at least as much
    as a record of the same length, with the same term frequency, scored
    against [t2] alone. *)
Theorem rarer_token_scores_higher (s : State) (t1 t2 : token) (d1 d2 : Doc) :
  reachable s →
  (getOr0 (dfMap s) t1 < getOr0 (dfMap s) t2)%nat →
  (getOr0 (dfMap s) t2 <= length (storedDocs s))%nat →
  getOr0 (termFreq d1) t1 = getOr0 (termFreq d2) t2 →
  length (tokens d1) = length (tokens d2) →
  (scoreDoc s [t2] d2 <= scoreDoc s [t1] d1)%R.
Proof.
  intros Hs Hdf Hle Htf Hlen.
  destruct (reachable_wellFormed s Hs) as [_ Havg].
  rewrite !scoreDoc_sum. simpl. rewrite !Rplus_0_r.
  destruct (decide (getOr0 (termFreq d2) t2 = 0%nat)) as [E|E].
  - rewrite !termScore_absent by congruence. lra.
  - rewrite !termScore_present by congruence.
    unfold lengthOrOne. rewrite Htf, Hlen.
    apply Rmult_le_compat_r; [| left; by apply idf_antitone].
    unfold Rdiv. apply Rmult_le_pos.
    + apply Rmult_le_pos; [apply pos_INR | unfold k1; lra].
    + left. apply Rinv_0_lt_compat. apply denom_pos; [done | lia].
Qed.

Lemma rarer_token_scores_higher_witness :
  reachable fruitState
  ∧ (getOr0 (dfMap fruitState) (js "apple")
     < getOr0 (dfMap fruitState) (js "banana"))%nat
  ∧ (scoreDoc fruitState [js "banana"] appleBananaDoc
     <= scoreDoc fruitState [js "apple"] appleBananaDoc)%R.
Proof.
  assert (Hs : reachable fruitState).
  { exists [CallInitialize
              [JsString (js "apple banana"); JsString (js "banana")]].
    reflexivity. }
  assert (Hdf : (getOr0 (dfMap fruitState) (js "apple")
                 < getOr0 (dfMap fruitState) (js "banana"))%nat).
  { vm_compute. lia. }
  split; [exact Hs |]. split; [exact Hdf |].
  apply (rarer_token_scores_higher fruitState (js "apple") (js "banana")
           appleBananaDoc appleBananaDoc Hs Hdf).
  - vm_compute. lia.
  - reflexivity.
  - reflexivity.
Defined.

(** ** The order of the result *)

Section sorting.

Open Scope R_scope.

Lemma insertSorted_Permutation x l : insertSorted compareScores x l ≡ₚ x :: l.
Proof.
  induction l as [|y l IH]; simpl; [done |].
  destruct (decide (compareScores x y <= 0)); [done |].
  rewrite IH. apply perm_swap.
Qed.

Lemma sort_Permutation l : sort compareScores l ≡ₚ l.
Proof.
  induction l as [|x l IH]; simpl; [done |].
  by rewrite insertSorted_Permutation, IH.
Qed.

Lemma insertSorted_descending x l :
  descending l → descending (insertSorted compareScores x l).
Proof.
  unfold descending.
  induction 1 as [|y l Hl IH Hy]; simpl.
  - repeat constructor.
  - destruct (decide (compareScores x y <= 0)) as [Hle|Hgt];
      unfold compareScores in *.
    + constructor; [by constructor |].
      constructor; [lra |].
      eapply Forall_impl; [exact Hy |]. simpl. intros z Hz. lra.
    + constructor; [exact IH |].
      fold (compareScores x). rewrite insertSorted_Permutation.
      constructor; [lra | exact Hy].
Qed.

Lemma sort_descending l : descending (sort compareScores l).
Proof.
  induction l as [|x l IH]; simpl; [constructor |].
  by apply insertSorted_descending.
Qed.

(** Insertion puts [x] before the elements of [l] with the same key. *)
Lemma filter_insertSorted v x l :
  filter (λ e, score e = v) (insertSorted compareScores x l)
  = filter (λ e, score e = v) (x :: l).
Proof.
  induction l as [|y l IH]; simpl; [done |].
  destruct (decide (compareScores x y <= 0)) as [Hle|Hgt]; [done |].
  unfold compareScores in Hgt.
  destruct (decide (score x = v)) as [Hx|Hx].
  - rewrite (filter_cons_False _ y) by lra.
    rewrite IH. rewrite !(filter_cons_True _ x) by done.
    by rewrite (filter_cons_False _ y) by lra.
  - rewrite (filter_cons_False _ x (y :: l)) by done.
    destruct (decide (score y = v)) as [Hy|Hy].
    + rewrite !(filter_cons_True _ y) by done.
      rewrite IH. by rewrite filter_cons_False.
    + rewrite !(filter_cons_False _ y) by done.
      rewrite IH. by rewrite filter_cons_False.
Qed.

(** The sort is stable: the elements of one score keep their order. *)
Lemma sort_stable v l :
  filter (λ e, score e = v) (sort compareScores l)
  = filter (λ e, score e = v) l.
Proof.
  induction l as [|x l IH]; simpl; [done |].
  rewrite filter_insertSorted.
  destruct (decide (score x = v)).
  - rewrite !(filter_cons_True _ x) by done. by rewrite IH.
  - rewrite !(filter_cons_False _ x) by done. by rewrite IH.
Qed.

Lemma descending_sublist l l' :
  l' `sublist_of` l → descending l → descending l'.
Proof.
  unfold descending. intros Hsub Hl. revert l' Hsub.
  induction Hl as [|x l Hl IH Hx]; intros l' Hsub.
  - apply sublist_nil_r in Hsub as ->. constructor.
  - apply sublist_cons_r in Hsub as [Hsub|(l'' & -> & Hsub)]; [by apply IH |].
    constructor; [by apply IH |].
    apply Forall_forall. intros z Hz.
    eapply Forall_forall in Hx; [exact Hx |].
    by eapply elem_of_sublist.
Qed.

Lemma descending_lookup l i j x y :
  descending l → (i < j)%nat → l !! i = Some x → l !! j = Some y →
  (score y <= score x).
Proof.
  unfold descending. intros Hl. revert i j.
  induction Hl as [|z l Hl IH Hz]; intros i j Hij Hi Hj; [done |].
  destruct j as [|j]; [lia |]. simpl in Hj.
  destruct i as [|i]; simpl in Hi.
  - injection Hi as ->. eapply Forall_forall in Hz; [exact Hz |].
    by eapply list_elem_of_lookup_2.
  - apply (IH i j); [lia | done | done].
Qed.

Lemma prefix_filter {A} (P : A → Prop) `{!∀ x, Decision (P x)}
    (l1 l2 : list A) :
  l1 `prefix_of` l2 → filter P l1 `prefix_of` filter P l2.
Proof. intros [l ->]. rewrite filter_app. by eexists. Qed.

Lemma filter_score_positive v l :
  filter (λ e, 0 < score e) (filter (λ e, score e = v) l)
  `prefix_of` filter (λ e, score e = v) l.
Proof.
  destruct (decide (0 < v)) as [Hv|Hv].
  - rewrite list_filter_filter.
    rewrite (list_filter_iff _ (λ e, score e = v)); [done |].
    intros e. split; [tauto |]. intros <-. done.
  - rewrite list_filter_filter.
    replace (filter (λ e, (0 < score e) ∧ score e = v) l) with (@nil Scored);
      [apply prefix_nil |].
    induction l as [|e l IH]; [done |].
    rewrite filter_cons_False; [done |]. intros [H <-]. done.
Qed.

End sorting.

Section ranked.

Lemma filter_none {A} (P : A → Prop) `{!∀ x, Decision (P x)} (l : list A) :
  Forall (λ x, ¬ P x) l → filter P l = [].
Proof.
  induction 1 as [|x l Hx _ IH]; [done |]. by rewrite filter_cons_False.
Qed.

Lemma filter_fmap_toHit v (l : list Scored) :
  filter (λ h, hitScore h = v) (toHit <$> l)
  = toHit <$> filter (λ e, score e = v) l.
Proof.
  induction l as [|e l IH]; [done |]. csimpl.
  destruct (decide (score e = v)) as [He|He].
  - rewrite !filter_cons_True by done. csimpl. by rewrite IH.
  - rewrite !filter_cons_False by done. done.
Qed.

Lemma prefix_fmap_toHit (l1 l2 : list Scored) :
  l1 `prefix_of` l2 → (toHit <$> l1) `prefix_of` (toHit <$> l2).
Proof. intros [l ->]. rewrite fmap_app. by eexists. Qed.

Lemma filter_filter_comm {A} (P1 P2 : A → Prop)
    `{!∀ x, Decision (P1 x), !∀ x, Decision (P2 x)} (l : list A) :
  filter P1 (filter P2 l) = filter P2 (filter P1 l).
Proof. rewrite !list_filter_filter. apply list_filter_iff. tauto. Qed.

Lemma rank_nil k : rank [] k = [].
Proof. unfold rank. simpl. rewrite filter_nil, take_nil. done. Qed.

(** Against no token every record scores [0], and none is returned. *)
Lemma rank_no_token s k : rank (scoreAll s []) k = [].
Proof.
  unfold rank. rewrite filter_none; [by rewrite take_nil |].
  rewrite sort_Permutation. unfold scoreAll.
  apply Forall_fmap, Forall_forall. intros d _. simpl.
  unfold scoreDoc. simpl. lra.
Qed.

(** On a string, [searchDocuments] returns the ranking of the scored
    records: the two early returns agree with it. *)
Lemma searchDocuments_rank (q : jsstring) k s :
  searchDocuments (JsString q) k s
  = (Returned (rank (scoreAll s (tokenizeString q)) k), s).
Proof.
  destruct (storedDocs s) as [|d docs] eqn:Hs.
  { rewrite searchDocuments_empty_store by done.
    unfold scoreAll. rewrite Hs. by rewrite rank_nil. }
  destruct (tokenizeString q) as [|t toks] eqn:Hq.
  { rewrite searchDocuments_empty_query by done. by rewrite rank_no_token. }
  rewrite searchDocuments_ranks;
    [by rewrite Hq | by rewrite Hs | by rewrite Hq].
Qed.

Lemma rank_length l k :
  length (rank l k) = k `min` length (filter (λ e, 0 < score e)%R l).
Proof.
  unfold rank. rewrite length_fmap, length_take.
  by rewrite sort_Permutation.
Qed.

Lemma rank_positive l k : Forall (λ h, 0 < hitScore h)%R (rank l k).
Proof.
  unfold rank. apply Forall_fmap, Forall_take, Forall_forall.
  intros e [He _]%list_elem_of_filter. exact He.
Qed.

Lemma rank_descending l k i j h h' :
  (i < j)%nat → rank l k !! i = Some h → rank l k !! j = Some h' →
  (hitScore h' <= hitScore h)%R.
Proof.
  unfold rank. rewrite !list_lookup_fmap. intros Hij Hi Hj.
  destruct (take k _ !! i) as [e|] eqn:Ei; [| done].
  destruct (take k _ !! j) as [e'|] eqn:Ej; [| done].
  injection Hi as <-. injection Hj as <-. simpl.
  eapply descending_lookup; [| exact Hij | exact Ei | exact Ej].
  eapply descending_sublist; [apply sublist_take |].
  eapply descending_sublist; [apply sublist_filter |].
  apply sort_descending.
Qed.

Lemma rank_stable l k v :
  filter (λ h, hitScore h = v) (rank l k)
  `prefix_of` toHit <$> filter (λ e, score e = v) l.
Proof.
  unfold rank. rewrite filter_fmap_toHit. apply prefix_fmap_toHit.
  etrans; [apply prefix_filter, prefix_take |].
  rewrite (filter_filter_comm (λ e, score e = v)).
  rewrite sort_stable. apply filter_score_positive.
Qed.

End ranked.

(** C5. On a string, [searchDocuments] returns the first [k] of the
    records that score more than [0]: at most [k] entries, each with a
    positive score, from the greatest score to the least, and the entries
    of one score are the first, in the order of insertion, of the records
    with that score. *)
Theorem search_ranked (s : State) (q : jsstring) (k : nat) :
  ∃ hits,
    searchDocuments (JsString q) k s = (Returned hits, s)
    ∧ length hits
      = k `min` length (filter (λ e, 0 < score e)%R
                          (scoreAll s (tokenizeString q)))
    ∧ (length hits <= k)%nat
    ∧ Forall (λ h, 0 < hitScore h)%R hits
    ∧ (∀ i j h h', (i < j)%nat → hits !! i = Some h → hits !! j = Some h' →
                   (hitScore h' <= hitScore h)%R)
    ∧ (∀ v, filter (λ h, hitScore h = v) hits
            `prefix_of` toHit <$> filter (λ e, score e = v)
                                    (scoreAll s (tokenizeString q))).
Proof.
  exists (rank (scoreAll s (tokenizeString q)) k).
  split; [apply searchDocuments_rank |].
  split; [apply rank_length |].
  split; [rewrite rank_length; lia |].
  split; [apply rank_positive |].
  split; [apply rank_descending | intros v; apply rank_stable].
Qed.

Lemma search_ranked_witness :
  ∃ hits,
    searchDocuments (JsString (js "apple")) 2 scenarioState
    = (Returned hits, scenarioState)
    ∧ (length hits <= 2)%nat
    ∧ Forall (λ h, 0 < hitScore h)%R hits.
Proof.
  destruct (search_ranked scenarioState (js "apple") 2)
    as (hits & Hsearch & _ & Hlen & Hpos & _).
  exists hits. split; [exact Hsearch |]. split; [exact Hlen | exact Hpos].
Defined.

(** ** Repeated query tokens *)

Section repeated.

Open Scope R_scope.

(** A query token that the record does not hold is skipped: the score
    is that of the query tokens the record holds, in their order. *)
Lemma fold_scoreStep_present s d Q : ∀ acc,
  fold_left (scoreStep s d) Q acc
  = fold_left (scoreStep s d)
      (filter (λ t, getOr0 (termFreq d) t ≠ 0%nat) Q) acc.
Proof.
  induction Q as [|t Q IH]; intros acc; [done |].
  destruct (decide (getOr0 (termFreq d) t = 0%nat)) as [E|E].
  - rewrite filter_cons_False by tauto. simpl. rewrite <- IH.
    f_equal. unfold scoreStep. simpl. by rewrite decide_True.
  - rewrite filter_cons_True by done. simpl. apply IH.
Qed.

Lemma scoreDoc_present s Q d :
  scoreDoc s Q d
  = scoreDoc s (filter (λ t, getOr0 (termFreq d) t ≠ 0%nat) Q) d.
Proof. apply fold_scoreStep_present. Qed.

Lemma filter_all {A} (P : A → Prop) `{!∀ x, Decision (P x)} (l : list A) :
  Forall P l → filter P l = l.
Proof.
  induction 1 as [|x l Hx _ IH]; [done |].
  rewrite filter_cons_True by done. by rewrite IH.
Qed.

(** Deduplication keeps, in their order, the elements of a kind of which
    none is repeated. *)
Lemma filter_newSet (P : token → Prop) `{!∀ t, Decision (P t)} Q :
  (∀ t, P t → (occurrences t Q <= 1)%nat) →
  filter P (newSet Q) = filter P Q.
Proof.
  induction Q as [|x Q IH]; intros Hrep; [done |].
  assert (Hrep' : ∀ t, P t → (occurrences t Q <= 1)%nat).
  { intros t Ht. specialize (Hrep t Ht). rewrite occurrences_cons in Hrep.
    lia. }
  cbn [newSet]. destruct (decide (P x)) as [Hx|Hx].
  - rewrite !filter_cons_True by done. f_equal.
    assert (Hnot : x ∉ Q).
    { apply occurrences_0. specialize (Hrep x Hx).
      rewrite occurrences_cons, (decide_True (P := x = x)) in Hrep by done.
      lia. }
    rewrite <- (IH Hrep'). f_equal.
    apply filter_all, Forall_forall. intros y Hy ->.
    by rewrite newSet_elem_of in Hy.
  - rewrite !filter_cons_False by done.
    transitivity (filter (λ y, y ≠ x) (filter P (newSet Q))).
    { rewrite !list_filter_filter. apply list_filter_iff. tauto. }
    rewrite (IH Hrep'). apply filter_all, Forall_forall. intros y Hy ->.
    by apply list_elem_of_filter in Hy as [? _].
Qed.

(** A query and its deduplicated form score a record alike when the
    query repeats no token that the record holds. *)
Lemma scoreDoc_newSet s Q d :
  (∀ u, getOr0 (termFreq d) u ≠ 0%nat → (occurrences u Q <= 1)%nat) →
  scoreDoc s Q d = scoreDoc s (newSet Q) d.
Proof.
  intros Hrep. rewrite (scoreDoc_present s Q), (scoreDoc_present s (newSet Q)).
  by rewrite filter_newSet.
Qed.

Lemma rank_singleton e k :
  0 < score e → rank [e] (S k) = [toHit e].
Proof.
  intros H. unfold rank. cbn [sort insertSorted].
  rewrite filter_cons_True by exact H. rewrite filter_nil.
  cbn [take firstn]. by rewrite take_nil.
Qed.

Lemma appleState_search (q : jsstring) k :
  tokenizeString q ≠ [] →
  searchDocuments (JsString q) k appleState
  = (Returned
       (rank [{| doc := appleDoc;
                 score := scoreDoc appleState (tokenizeString q) appleDoc |}]
             k),
     appleState).
Proof.
  intros Hq. rewrite searchDocuments_ranks; [done | | done].
  by change (storedDocs appleState) with [appleDoc].
Qed.

End repeated.

(** C1, as the code has it.  The loop over the query tokens does not
    deduplicate: each occurrence of a token adds to the score what the
    token scores alone, so a record scores against [t t] twice what it
    scores against [t], which in a state of the module is more when the
    record holds [t].  The score of [d] against [Q] is its score against
    the deduplicated [Q] when [Q] repeats no token that [d] holds, and a
    query and its deduplicated form return the same when the query
    repeats no token that a stored record holds. *)
Theorem score_counts_occurrences
    (s : State) (d : Doc) (Q : list token) (t : token) (q q' : jsstring)
    (k : nat) :
  scoreDoc s (Q ++ [t]) d = (scoreDoc s Q d + scoreDoc s [t] d)%R
  ∧ scoreDoc s [t; t] d = (2 * scoreDoc s [t] d)%R
  ∧ (reachable s → getOr0 (termFreq d) t ≠ 0%nat →
     (0 < scoreDoc s [t] d < scoreDoc s [t; t] d)%R)
  ∧ ((∀ u, getOr0 (termFreq d) u ≠ 0%nat → (occurrences u Q <= 1)%nat) →
     scoreDoc s Q d = scoreDoc s (newSet Q) d)
  ∧ (tokenizeString q' = newSet (tokenizeString q) →
     (∀ d' u, d' ∈ storedDocs s → getOr0 (termFreq d') u ≠ 0%nat →
              (occurrences u (tokenizeString q) <= 1)%nat) →
     searchDocuments (JsString q) k s = searchDocuments (JsString q') k s).
Proof.
  assert (Htwice : scoreDoc s [t; t] d = (2 * scoreDoc s [t] d)%R).
  { change [t; t] with ([t] ++ [t]).
    rewrite scoreDoc_snoc, scoreDoc_singleton. lra. }
  split; [| split; [exact Htwice | split; [| split]]].
  - by rewrite scoreDoc_snoc, scoreDoc_singleton.
  - intros Hs Htf. rewrite Htwice, scoreDoc_singleton.
    destruct (reachable_wellFormed s Hs) as [_ Havg].
    pose proof (reachable_frequenciesBounded s Hs t) as Hdf.
    pose proof (termScore_pos s d t Havg Htf Hdf). lra.
  - apply scoreDoc_newSet.
  - intros Hq' Hrep. rewrite !searchDocuments_rank, Hq'.
    do 3 f_equal. unfold scoreAll. apply list_fmap_ext.
    intros i d' Hd'%list_elem_of_lookup_2. f_equal.
    apply scoreDoc_newSet. intros u. by apply Hrep.
Qed.

Lemma score_counts_occurrences_witness :
  reachable fruitState
  ∧ getOr0 (termFreq appleBananaDoc) (js "banana") ≠ 0%nat
  ∧ (0 < scoreDoc fruitState [js "banana"] appleBananaDoc
     < scoreDoc fruitState [js "banana"; js "banana"] appleBananaDoc)%R
  ∧ tokenizeString (js "kiwi banana")
    = newSet (tokenizeString (js "Kiwi, kiwi, banana"))
  ∧ scoreDoc fruitState [js "kiwi"; js "kiwi"; js "banana"] appleBananaDoc
    = scoreDoc fruitState [js "kiwi"; js "banana"] appleBananaDoc
  ∧ searchDocuments (JsString (js "Kiwi, kiwi, banana")) 5 fruitState
    = searchDocuments (JsString (js "kiwi banana")) 5 fruitState.
Proof.
  assert (Hs : reachable fruitState).
  { exists [CallInitialize
              [JsString (js "apple banana"); JsString (js "banana")]].
    reflexivity. }
  assert (Htf : getOr0 (termFreq appleBananaDoc) (js "banana") ≠ 0%nat).
  { vm_compute. lia. }
  assert (Hq : tokenizeString (js "kiwi banana")
               = newSet (tokenizeString (js "Kiwi, kiwi, banana"))).
  { reflexivity. }
  assert (Hrep : ∀ d' u,
    d' ∈ storedDocs fruitState → getOr0 (termFreq d') u ≠ 0%nat →
    (occurrences u (tokenizeString (js "Kiwi, kiwi, banana")) <= 1)%nat).
  { intros d' u Hd' Hu.
    change (tokenizeString (js "Kiwi, kiwi, banana"))
      with [js "kiwi"; js "kiwi"; js "banana"].
    destruct (decide (u = js "kiwi")) as [->|Hne].
    - change (storedDocs fruitState) with [appleBananaDoc; bananaDoc] in Hd'.
      apply elem_of_cons in Hd' as [->|Hd'].
      + destruct Hu. reflexivity.
      + apply list_elem_of_singleton in Hd' as ->. destruct Hu. reflexivity.
    - rewrite !occurrences_cons.
      rewrite !(decide_False (P := js "kiwi" = u)) by congruence.
      unfold occurrences at 1. simpl. case_decide; lia. }
  destruct (score_counts_occurrences fruitState appleBananaDoc
              [js "kiwi"; js "kiwi"; js "banana"]
              (js "banana") (js "Kiwi, kiwi, banana") (js "kiwi banana") 5)
    as (_ & _ & Hmore & Hscore & Hsearch).
  split; [exact Hs |]. split; [exact Htf |]. split; [exact (Hmore Hs Htf) |].
  split; [exact Hq |]. split; [| by apply Hsearch].
  apply Hscore. intros u. apply (Hrep appleBananaDoc).
  change (storedDocs fruitState) with [appleBananaDoc; bananaDoc].
  apply list_elem_of_here.
Defined.

(** C1, as it is stated, fails: against the query [apple apple] the
    record of ["apple"] scores twice what it scores against the
    deduplicated query [apple], and the two searches return different
    scores. *)
Lemma repeated_query_token_scores_twice :
  scoreDoc appleState [js "apple"; js "apple"] appleDoc
  ≠ scoreDoc appleState (newSet [js "apple"; js "apple"]) appleDoc
  ∧ newSet (tokenizeString (js "apple apple")) = tokenizeString (js "apple")
  ∧ searchDocuments (JsString (js "apple apple")) 5 appleState
    ≠ searchDocuments (JsString (js "apple")) 5 appleState.
Proof.
  pose proof appleState_termScore_pos as Hpos.
  assert (H1 : scoreDoc appleState [js "apple"] appleDoc
               = termScore appleState appleDoc (js "apple")).
  { rewrite scoreDoc_sum. simpl. lra. }
  assert (H2 : scoreDoc appleState [js "apple"; js "apple"] appleDoc
               = (termScore appleState appleDoc (js "apple")
                  + termScore appleState appleDoc (js "apple"))%R).
  { rewrite scoreDoc_sum. simpl. lra. }
  split; [| split].
  - change (newSet [js "apple"; js "apple"]) with [js "apple"].
    rewrite H1, H2. lra.
  - reflexivity.
  - rewrite !appleState_search by done.
    change (tokenizeString (js "apple apple")) with [js "apple"; js "apple"].
    change (tokenizeString (js "apple")) with [js "apple"].
    rewrite !rank_singleton by (rewrite ?H1, ?H2; simpl; lra).
    intros E. injection E as E. simpl in E. rewrite H1, H2 in E. lra.
Qed.

Section malformed.

Lemma makeRecord_rejected v : rejected v → makeRecord v = Thrown TypeError.
Proof. unfold rejected, makeRecord. by intros ->. Qed.

Lemma arrayMap_malformed l :
  Exists rejected l → arrayMap makeRecord l = Thrown TypeError.
Proof.
  induction 1 as [v l Hv|v l _ IH]; simpl.
  - by rewrite makeRecord_rejected.
  - destruct (makeRecord v) as [d|[]]; [| done]. by rewrite IH.
Qed.

(** [initializeVectorStore] on such a batch returns [false] and has
    written nothing: [documents.map] throws before the assignment. *)
Lemma initializeVectorStore_malformed l s :
  Exists rejected l → initializeVectorStore l s = (Returned false, s).
Proof.
  intros H. rewrite initializeVectorStore_unfold.
  by rewrite arrayMap_malformed.
Qed.

(** [addDocuments] on such a batch throws; the records of the entries
    before the first bad one are in the store, and [rebuildIndex] has
    not run. *)
Lemma addDocuments_malformed l s :
  Exists rejected l →
  addDocuments l s
  = (Thrown TypeError, withDocs s (storedDocs s ++ builtBeforeThrow l)).
Proof.
  intros H. rewrite addDocuments_unfold. by rewrite arrayMap_malformed.
Qed.

(** A call that completes leaves statistics that agree with the store. *)
Lemma initializeVectorStore_consistent l s :
  (initializeVectorStore l s).1 = Returned true →
  consistent (initializeVectorStore l s).2.
Proof.
  rewrite initializeVectorStore_unfold.
  destruct (arrayMap makeRecord l); [| done].
  intros _. apply rebuilt_consistent.
Qed.

Lemma addDocuments_consistent l s :
  (addDocuments l s).1 = Returned () → consistent (addDocuments l s).2.
Proof.
  rewrite addDocuments_unfold.
  destruct (arrayMap makeRecord l); [| done].
  intros _. apply rebuilt_consistent.
Qed.

Lemma staleState_eq :
  addDocuments [JsString (js "apple"); JsNull] initialState
  = (Thrown TypeError,
     {| storedDocs := [appleDoc]; dfMap := ∅; avgDocLength := 0 |}).
Proof. reflexivity. Qed.

Lemma staleState_reachable : reachable staleState.
Proof. exists [CallAdd [JsString (js "apple"); JsNull]]. reflexivity. Qed.

Lemma staleState_score :
  scoreDoc staleState [js "apple"] appleDoc = ln 4.
Proof.
  rewrite scoreDoc_sum. cbn [map sumR foldr].
  rewrite termScore_present by (vm_compute; lia).
  change (length (storedDocs staleState)) with 1%nat.
  change (dfMap staleState) with (∅ : gmap token nat).
  change (avgDocLength staleState) with 0%R.
  change (getOr0 (termFreq appleDoc) (js "apple")) with 1%nat.
  change (lengthOrOne (tokens appleDoc)) with 1%nat.
  unfold idf. change (getOr0 ∅ (js "apple")) with 0%nat.
  unfold denom, orOne, k1, b. rewrite decide_True by done.
  cbn [INR].
  replace (1 + (1 - 0 + 0.5) / (0 + 0.5))%R with 4%R by lra.
  replace (1 * (1.5 + 1) / (1 + 1.5 * (1 - 0.75 + 0.75 * 1 / 1)))%R
    with 1%R by lra.
  lra.
Qed.

Lemma ln_4_pos : (0 < ln 4)%R.
Proof. rewrite <- ln_1. apply ln_increasing; lra. Qed.

Lemma staleState_search :
  searchDocuments (JsString (js "apple")) 5 staleState
  = (Returned [{| hitPageContent := JsString (js "apple");
                  hitScore := ln 4 |}],
     staleState).
Proof.
  rewrite searchDocuments_rank.
  change (tokenizeString (js "apple")) with [js "apple"].
  unfold scoreAll. change (storedDocs staleState) with [appleDoc].
  cbn [map]. rewrite staleState_score.
  rewrite rank_singleton by apply ln_4_pos. reflexivity.
Qed.

End malformed.

(** C2, on the code.  [initializeVectorStore(["apple", null])] returns
    [false] and leaves every state as it was.  [addDocuments(["apple",
    null])] throws, and on the module as loaded it has stored the record
    of ["apple"]: the search for [apple], empty before the call, returns
    that record after it. *)
Theorem addDocuments_partial_insertion :
  (∀ s, initializeVectorStore [JsString (js "apple"); JsNull] s
        = (Returned false, s))
  ∧ addDocuments [JsString (js "apple"); JsNull] initialState
    = (Thrown TypeError, staleState)
  ∧ storedDocs initialState = []
  ∧ storedDocs staleState = [appleDoc]
  ∧ searchDocuments (JsString (js "apple")) 5 initialState
    = (Returned [], initialState)
  ∧ searchDocuments (JsString (js "apple")) 5 staleState
    = (Returned [{| hitPageContent := JsString (js "apple");
                    hitScore := ln 4 |}],
       staleState).
Proof.
  split; [| split; [| split; [| split; [| split]]]].
  - intros s. apply initializeVectorStore_malformed.
    apply Exists_cons_tl, Exists_cons_hd. reflexivity.
  - reflexivity.
  - reflexivity.
  - reflexivity.
  - by apply searchDocuments_empty_store.
  - apply staleState_search.
Qed.

(** C3, on the code.  After the [addDocuments(["apple", null])] that
    throws, one stored record contains [apple] and [dfMap] has no key;
    the mean length of the store is [1] and [avgDocLength] is [0]: the
    statistics do not agree with the store. *)
Theorem addDocuments_failure_stale_statistics :
  (addDocuments [JsString (js "apple"); JsNull] initialState).1
  = Thrown TypeError
  ∧ docCount (storedDocs staleState) (js "apple") = 1%nat
  ∧ dfMap staleState !! js "apple" = None
  ∧ meanLength (storedDocs staleState) = 1%R
  ∧ avgDocLength staleState = 0%R
  ∧ ¬ consistent staleState.
Proof.
  assert (Hdf : dfMap staleState !! js "apple" = None) by reflexivity.
  assert (Hcount : docCount (storedDocs staleState) (js "apple") = 1%nat)
    by reflexivity.
  split; [reflexivity |]. split; [exact Hcount |]. split; [exact Hdf |].
  split; [| split; [reflexivity |]].
  - change (storedDocs staleState) with [appleDoc].
    unfold meanLength. simpl. lra.
  - intros [Hkeys _]. specialize (Hkeys (js "apple")).
    change (@None nat = Some 1%nat) in Hkeys. done.
Qed.

(** ** Divisions *)

Section divisions.

Open Scope R_scope.

(** The three divisors of [searchDocuments], in every state of the
    module: [df + 0.5], [avgDocLength || 1] and [denom]. *)
Lemma divisors_nonzero s t dl tf :
  reachable s → (0 < tf)%nat →
  INR (getOr0 (dfMap s) t) + 0.5 ≠ 0
  ∧ orOne (avgDocLength s) ≠ 0
  ∧ denom (avgDocLength s) dl tf ≠ 0.
Proof.
  intros [_ Havg]%reachable_wellFormed Htf.
  pose proof (pos_INR (getOr0 (dfMap s) t)).
  pose proof (denom_pos (avgDocLength s) dl tf Havg Htf).
  split; [lra |]. split; [apply orOne_nonzero | lra].
Qed.

Lemma totalTokens_0 docs :
  totalTokens docs = 0%nat → Forall (λ d, tokens d = []) docs.
Proof.
  induction docs as [|d docs IH]; simpl; [constructor |].
  intros H. constructor; [| apply IH; lia].
  destruct (tokens d); [done | simpl in H; lia].
Qed.

Lemma meanLength_0 docs :
  meanLength docs = 0 → Forall (λ d, tokens d = []) docs.
Proof.
  destruct docs as [|d docs]; [constructor |].
  unfold meanLength. intros H. apply totalTokens_0.
  assert (Hlen : 0 < INR (length (d :: docs))) by (apply INR_pos; simpl; lia).
  apply INR_eq. simpl (INR 0).
  apply Rmult_eq_reg_r with (/ INR (length (d :: docs))).
  - rewrite Rmult_0_l. exact H.
  - apply Rinv_neq_0_compat. lra.
Qed.

(** When the statistics agree with the store and the average length is
    [0], no record has a token and every search is empty. *)
Lemma search_zero_average s (q : jsstring) k :
  consistent s → Forall madeRecord (storedDocs s) → avgDocLength s = 0 →
  searchDocuments (JsString q) k s = (Returned [], s).
Proof.
  intros [_ Hmean] Hmade Havg. rewrite searchDocuments_rank. do 2 f_equal.
  rewrite Havg in Hmean. symmetry in Hmean. apply meanLength_0 in Hmean.
  unfold rank. rewrite filter_none; [by rewrite take_nil |].
  rewrite sort_Permutation. unfold scoreAll.
  apply Forall_fmap, Forall_forall. intros d Hd. simpl.
  rewrite scoreDoc_sum.
  assert (Hzero : ∀ t, termScore s d t = 0).
  { intros t. apply termScore_absent.
    eapply Forall_forall in Hmade; [| exact Hd].
    eapply Forall_forall in Hmean; [| exact Hd].
    rewrite (madeRecord_termFreq _ _ Hmade). simpl in Hmean.
    by rewrite Hmean. }
  induction (tokenizeString q) as [|t l IH]; simpl; [lra |].
  rewrite Hzero. lra.
Qed.

End divisions.

(** C8, on the code.  After the [addDocuments(["apple", null])] that
    throws, [avgDocLength] is [0] and the search for [apple] returns the
    record of ["apple"], with the score [ln 4]: the divisor
    [avgDocLength || 1] is [1]. *)
Theorem search_stale_average :
  reachable staleState
  ∧ avgDocLength staleState = 0%R
  ∧ orOne (avgDocLength staleState) = 1%R
  ∧ searchDocuments (JsString (js "apple")) 5 staleState
    = (Returned [{| hitPageContent := JsString (js "apple");
                    hitScore := ln 4 |}],
       staleState).
Proof.
  split; [apply staleState_reachable |]. split; [reflexivity |].
  split; [| apply staleState_search].
  change (avgDocLength staleState) with 0%R.
  unfold orOne. by rewrite decide_True.
Qed.

Section scenario.

Open Scope R_scope.

Lemma rank_tie (d1 d2 d3 : Doc) (x : R) (k : nat) :
  0 < x →
  rank [{| doc := d1; score := x |}; {| doc := d2; score := 0 |};
        {| doc := d3; score := x |}] (S (S k))
  = [{| hitPageContent := pageContent d1; hitScore := x |};
     {| hitPageContent := pageContent d3; hitScore := x |}].
Proof.
  intros Hx. unfold rank. cbn [sort insertSorted score].
  rewrite (decide_False (P := x - 0 <= 0)) by lra.
  cbn [insertSorted score].
  rewrite (decide_True (P := x - x <= 0)) by lra.
  rewrite filter_cons_True by (simpl; lra).
  rewrite filter_cons_True by (simpl; lra).
  rewrite filter_cons_False by (simpl; lra).
  rewrite filter_nil. cbn [take firstn]. rewrite take_nil. reflexivity.
Qed.

(** [searchDocuments("apple", 2)] returns the first and the third
    record, which tie, in the order of insertion. *)
Example search_apple_scenario :
  ∃ x, 0 < x
    ∧ searchDocuments (JsString (js "apple")) 2 scenarioState
      = (Returned
           [{| hitPageContent := JsString (js "apple banana");
               hitScore := x |};
            {| hitPageContent := JsString (js "apple cherry");
               hitScore := x |}],
         scenarioState).
Proof.
  pose (d1 := {| pageContent := JsString (js "apple banana");
                 tokens := [js "apple"; js "banana"];
                 termFreq := countTerms [js "apple"; js "banana"] |}).
  pose (d2 := {| pageContent := JsString (js "banana cherry");
                 tokens := [js "banana"; js "cherry"];
                 termFreq := countTerms [js "banana"; js "cherry"] |}).
  pose (d3 := {| pageContent := JsString (js "apple cherry");
                 tokens := [js "apple"; js "cherry"];
                 termFreq := countTerms [js "apple"; js "cherry"] |}).
  exists (termScore scenarioState d1 (js "apple")).
  assert (Hpos : 0 < termScore scenarioState d1 (js "apple")).
  { apply termScore_pos;
      [vm_compute; lra | vm_compute; lia | vm_compute; lia]. }
  split; [exact Hpos |].
  rewrite searchDocuments_rank.
  change (tokenizeString (js "apple")) with [js "apple"].
  unfold scoreAll. change (storedDocs scenarioState) with [d1; d2; d3].
  cbn [map]. rewrite !scoreDoc_sum. cbn [map sumR foldr].
  rewrite (termScore_absent _ d2) by reflexivity.
  replace (termScore scenarioState d3 (js "apple"))
    with (termScore scenarioState d1 (js "apple")).
  2:{ rewrite !termScore_present by (vm_compute; lia). reflexivity. }
  rewrite !Rplus_0_r. by rewrite rank_tie.
Qed.

End scenario.

(** * Further properties *)

(** ** The tokenizer *)

Section tokens.

Lemma Runs_tokens s ts :
  Runs s ts →
  Forall (λ t, t ≠ [] ∧ Forall (λ c, isTokenChar c = true) t) ts.
Proof. induction 1; [constructor | done | by constructor]. Qed.

Lemma lowerUnit_lower c :
  Forall (λ u, lowerUnit u = [u]) (lowerUnit c).
Proof.
  unfold lowerUnit at 2.
  destruct ((65 <=? c) && (c <=? 90))%N eqn:Eup.
  - apply andb_true_iff in Eup as [H1%N.leb_le H2%N.leb_le].
    repeat constructor. unfold lowerUnit.
    replace ((65 <=? c + 32) && (c + 32 <=? 90))%N with false.
    2:{ symmetry. apply andb_false_iff. right. apply N.leb_gt. lia. }
    destruct (N.eqb_spec (c + 32) 304); [lia |].
    destruct (N.eqb_spec (c + 32) 8490); [lia | done].
  - destruct (N.eqb_spec c 304) as [->|H304]; [by repeat constructor |].
    destruct (N.eqb_spec c 8490) as [->|H8490]; [by repeat constructor |].
    repeat constructor. unfold lowerUnit. rewrite Eup.
    destruct (N.eqb_spec c 304); [done |].
    destruct (N.eqb_spec c 8490); done.
Qed.

Lemma toLowerCase_fixed s :
  Forall (λ u, lowerUnit u = [u]) s → toLowerCase s = s.
Proof.
  unfold toLowerCase. induction 1 as [|u s Hu _ IH]; [done |].
  simpl. by rewrite Hu, IH.
Qed.

Lemma toLowerCase_idempotent s : toLowerCase (toLowerCase s) = toLowerCase s.
Proof.
  apply toLowerCase_fixed. unfold toLowerCase.
  induction s as [|c s IH]; simpl; [constructor |].
  apply Forall_app. split; [apply lowerUnit_lower | exact IH].
Qed.

Lemma isTokenChar_lower c : isTokenChar c = true → lowerUnit c = [c].
Proof.
  intros H. unfold lowerUnit.
  unfold isTokenChar in H.
  apply orb_true_iff in H as [H|H];
    apply andb_true_iff in H as [H1%N.leb_le H2%N.leb_le].
  - replace ((65 <=? c) && (c <=? 90))%N with false.
    2:{ symmetry. apply andb_false_iff. right. apply N.leb_gt. lia. }
    destruct (N.eqb_spec c 304); [lia |].
    destruct (N.eqb_spec c 8490); [lia | done].
  - replace ((65 <=? c) && (c <=? 90))%N with false.
    2:{ symmetry. apply andb_false_iff. left. apply N.leb_gt. lia. }
    destruct (N.eqb_spec c 304); [lia |].
    destruct (N.eqb_spec c 8490); [lia | done].
Qed.

Lemma join_cons sep x y l :
  join sep (x :: y :: l) = x ++ sep ++ join sep (y :: l).
Proof. reflexivity. Qed.

(** The runs of tokens joined by one space are the tokens. *)
Lemma Runs_join ts :
  Forall (λ t, t ≠ [] ∧ Forall (λ c, isTokenChar c = true) t) ts →
  Runs (join (js " ") ts) ts.
Proof.
  induction 1 as [|t ts [Hne Ht] Hts IH]; [constructor |].
  destruct ts as [|t' ts].
  - simpl. rewrite <- (app_nil_r t) at 1.
    apply Runs_token; [done | done | by left | constructor].
  - rewrite join_cons. apply Runs_token; [done | done | |].
    + right. by exists 32%N, (join (js " ") (t' :: ts)).
    + apply (Runs_separator 32%N); [done | exact IH].
Qed.

Lemma join_lower ts :
  Forall (λ t, t ≠ [] ∧ Forall (λ c, isTokenChar c = true) t) ts →
  toLowerCase (join (js " ") ts) = join (js " ") ts.
Proof.
  intros Hts. apply toLowerCase_fixed.
  induction Hts as [|t ts [_ Ht] Hts IH]; [constructor |].
  assert (Hlow : Forall (λ u, lowerUnit u = [u]) t).
  { eapply Forall_impl; [exact Ht |]. apply isTokenChar_lower. }
  destruct ts as [|t' ts]; [exact Hlow |].
  rewrite join_cons. apply Forall_app. split; [exact Hlow |].
  constructor; [done | exact IH].
Qed.

End tokens.

(** X1. Every token that [tokenize] returns is a non-empty string of
    units of [[a-z0-9]]: no empty token, no upper-case letter, no unit
    outside ASCII. *)
Theorem tokens_are_lowercase_alphanumeric (text : jsstring) (t : token) :
  t ∈ tokenizeString text →
  t ≠ [] ∧ Forall (λ c, isTokenChar c = true) t
  ∧ Forall (λ c, (c < 128)%N) t.
Proof.
  intros Hin.
  pose proof (Runs_tokens _ _ (tokenizeString_Runs text)) as Hall.
  eapply Forall_forall in Hall as [Hne Ht]; [| exact Hin].
  split; [done |]. split; [done |].
  eapply Forall_impl; [exact Ht |]. apply isTokenChar_ascii.
Qed.

Lemma tokens_are_lowercase_alphanumeric_witness :
  js "b2" ∈ tokenizeString (js "A, B2!")
  ∧ js "b2" ≠ [] ∧ Forall (λ c, isTokenChar c = true) (js "b2")
  ∧ Forall (λ c, (c < 128)%N) (js "b2").
Proof.
  assert (Hin : js "b2" ∈ tokenizeString (js "A, B2!")).
  { change (tokenizeString (js "A, B2!")) with [js "a"; js "b2"].
    apply list_elem_of_further, list_elem_of_here. }
  split; [exact Hin |].
  apply (tokens_are_lowercase_alphanumeric (js "A, B2!") (js "b2") Hin).
Defined.

(** X2. [tokenize] does not see the case of its input: a text and its
    lower case have the same tokens, and a search with either as the
    query returns the same. *)
Theorem tokenize_ignores_case (text : jsstring) (k : nat) (s : State) :
  tokenizeString (toLowerCase text) = tokenizeString text
  ∧ searchDocuments (JsString (toLowerCase text)) k s
    = searchDocuments (JsString text) k s.
Proof.
  assert (H : tokenizeString (toLowerCase text) = tokenizeString text).
  { unfold tokenizeString. by rewrite toLowerCase_idempotent. }
  split; [exact H |].
  rewrite !searchDocuments_rank. by rewrite H.
Qed.

(** X3. Tokens joined by a space and tokenized again are the same
    tokens; in particular tokenizing the joined tokens of a text gives
    the tokens of the text. *)
Theorem tokenize_join_round_trip (ts : list token) (text : jsstring) :
  (Forall (λ t, t ≠ [] ∧ Forall (λ c, isTokenChar c = true) t) ts →
   tokenizeString (join (js " ") ts) = ts)
  ∧ tokenizeString (join (js " ") (tokenizeString text))
    = tokenizeString text.
Proof.
  assert (Hgen : ∀ l,
    Forall (λ t, t ≠ [] ∧ Forall (λ c, isTokenChar c = true) t) l →
    tokenizeString (join (js " ") l) = l).
  { intros l Hl.
    apply (Runs_functional (toLowerCase (join (js " ") l))).
    - apply tokenizeString_Runs.
    - rewrite join_lower by done. by apply Runs_join. }
  split; [apply Hgen |].
  apply Hgen. apply (Runs_tokens _ _ (tokenizeString_Runs text)).
Qed.

Lemma tokenize_join_round_trip_witness :
  tokenizeString (join (js " ") [js "vite"; js "react19"])
  = [js "vite"; js "react19"].
Proof.
  apply (proj1 (tokenize_join_round_trip [js "vite"; js "react19"] (js ""))).
  repeat constructor; done.
Defined.

(** ** Records *)

Section records.

Lemma totalCount_increment m t : totalCount (increment m t) = S (totalCount m).
Proof.
  assert (Hcomm : ∀ z1 z2 y : nat, (z1 + (z2 + y) = z2 + (z1 + y))%nat)
    by (intros; lia).
  unfold totalCount, increment, getOr0.
  destruct (m !! t) as [n|] eqn:E; simpl.
  - rewrite <- insert_delete_eq.
    rewrite map_fold_insert_L; [| intros; apply Hcomm | apply lookup_delete_eq].
    rewrite (map_fold_delete_L _ _ t n m); [lia | intros; apply Hcomm | done].
  - rewrite map_fold_insert_L; [lia | intros; apply Hcomm | done].
Qed.

Lemma totalCount_fold_increment l : ∀ m,
  totalCount (fold_left increment l m) = (totalCount m + length l)%nat.
Proof.
  induction l as [|t l IH]; intros m; simpl; [lia |].
  rewrite IH, totalCount_increment. lia.
Qed.

Lemma countTerms_lookup toks t :
  countTerms toks !! t
  = if decide (t ∈ toks) then Some (occurrences t toks) else None.
Proof.
  assert (Hpos : positiveValues (countTerms toks)).
  { apply positiveValues_fold_increment. unfold positiveValues.
    intros u n H. by rewrite lookup_empty in H. }
  rewrite (positiveValues_lookup _ t Hpos), countTerms_occurrences.
  destruct (decide (t ∈ toks)) as [Hin|Hin].
  - rewrite decide_False; [done |]. by intros H0%occurrences_0.
  - rewrite decide_True; [done |]. by apply occurrences_0.
Qed.

(** The tokens of any string that is split are runs of the class. *)
Lemma split_Runs s : Runs s (filterBoolean (split s)).
Proof. by apply (splitRe_Runs s false []). Qed.

Lemma tokenize_tokens v toks :
  tokenize v = Returned toks →
  Forall (λ t, t ≠ [] ∧ Forall (λ c, isTokenChar c = true) t) toks.
Proof.
  intros H.
  assert (Hstr : ∀ str, Forall (λ t, t ≠ [] ∧ Forall (λ c, isTokenChar c = true) t)
                          (tokenizeString str)).
  { intros str. apply (Runs_tokens _ _ (tokenizeString_Runs str)). }
  destruct v as [str| | | | |str| |lowered]; simpl in H;
    try discriminate H; try (injection H as <-; apply Hstr).
  destruct lowered as [str| | | | |str| |lowered']; simpl in H;
    try discriminate H; injection H as <-;
    apply (Runs_tokens _ _ (split_Runs str)).
Qed.

Lemma makeRecord_Returned text d :
  makeRecord text = Returned d →
  pageContent d = text ∧ tokenize text = Returned (tokens d)
  ∧ termFreq d = countTerms (tokens d).
Proof.
  unfold makeRecord. destruct (tokenize text) as [toks|e]; [| done].
  intros H. injection H as <-. done.
Qed.

End records.

(** X4. [tokenize] does not test the type of the entry, and a record is
    built from every entry on which [tokenize] returns, a string or not.
    The record keeps the entry as [pageContent]; its tokens are what
    [tokenize] returns on the entry, each a non-empty string of units of
    [[a-z0-9]]; the keys of [termFreq] are the distinct tokens, each with
    its number of occurrences, and the counts add up to the number of
    tokens. *)
Theorem record_invariant (text : JsValue) (d : Doc) :
  (accepted text ↔ ∃ d', makeRecord text = Returned d')
  ∧ (makeRecord text = Returned d →
     pageContent d = text
     ∧ tokenize text = Returned (tokens d)
     ∧ Forall (λ t, t ≠ [] ∧ Forall (λ c, isTokenChar c = true) t) (tokens d)
     ∧ (∀ t, termFreq d !! t
             = if decide (t ∈ tokens d) then Some (occurrences t (tokens d))
               else None)
     ∧ totalCount (termFreq d) = length (tokens d)).
Proof.
  split.
  - unfold accepted, makeRecord. split.
    + intros [toks ->]. by eexists.
    + intros [d' H]. destruct (tokenize text) as [toks|e]; [| done].
      by exists toks.
  - intros H. pose proof H as (-> & Htoks & ->)%makeRecord_Returned.
    split; [done |]. split; [done |]. split; [| split].
    + by eapply tokenize_tokens.
    + apply countTerms_lookup.
    + unfold countTerms. rewrite totalCount_fold_increment.
      unfold totalCount. by rewrite map_fold_empty.
Qed.

Lemma record_invariant_witness :
  makeRecord (JsStringObject (js "To be, or not to be"))
  = Returned {| pageContent := JsStringObject (js "To be, or not to be");
                tokens := tokenizeString (js "To be, or not to be");
                termFreq :=
                  countTerms (tokenizeString (js "To be, or not to be")) |}
  ∧ tokenize (JsStringObject (js "To be, or not to be"))
    = Returned (tokenizeString (js "To be, or not to be"))
  ∧ totalCount (countTerms (tokenizeString (js "To be, or not to be")))
    = 6%nat.
Proof.
  split; [reflexivity |].
  pose proof (proj2 (record_invariant
                       (JsStringObject (js "To be, or not to be")) _)
                eq_refl) as (_ & Htoks & _ & _ & Htotal).
  split; [exact Htoks | exact Htotal].
Defined.

(** ** Batches *)

Section batches.



Lemma isString_accepted v : isString v → accepted v.
Proof. intros [str ->]. by eexists. Qed.

Lemma lacksToLowerCase_rejected v : lacksToLowerCase v → rejected v.
Proof. by destruct v. Qed.



(** On a batch that [tokenize] accepts [documents.map] returns one record
    for each entry, in order, with the entry as [pageContent]. *)
Lemma arrayMap_accepted l :
  Forall accepted l →
  ∃ ds, arrayMap makeRecord l = Returned ds ∧ map pageContent ds = l.
Proof.
  induction 1 as [|v l [toks Hv] _ (ds & Hds & Hpc)]; simpl.
  - by exists [].
  - rewrite Hds. unfold makeRecord. rewrite Hv. eexists. split; [done |].
    simpl. by rewrite Hpc.
Qed.

Lemma arrayMap_strings l :
  Forall isString l →
  ∃ ds, arrayMap makeRecord l = Returned ds ∧ map pageContent ds = l.
Proof.
  intros H. apply arrayMap_accepted.
  eapply Forall_impl; [exact H |]. apply isString_accepted.
Qed.

Lemma arrayMap_app l1 l2 ds1 ds2 :
  arrayMap makeRecord l1 = Returned ds1 →
  arrayMap makeRecord l2 = Returned ds2 →
  arrayMap makeRecord (l1 ++ l2) = Returned (ds1 ++ ds2).
Proof.
  revert ds1. induction l1 as [|v l1 IH]; intros ds1 H1 H2; simpl in *.
  - injection H1 as <-. done.
  - destruct (makeRecord v) as [d|e]; [| done].
    destruct (arrayMap makeRecord l1) as [ds|e]; [| done].
    injection H1 as <-. by rewrite (IH ds eq_refl H2).
Qed.


End batches.



(** X6. A call of [initializeVectorStore] on strings discards what was
    stored: its result and the state it leaves are the same from any two
    states, so a second call on the same texts changes nothing. *)
Theorem initializeVectorStore_replaces (l : list JsValue) (s s' : State) :
  Forall isString l →
  initializeVectorStore l s = initializeVectorStore l s'
  ∧ initializeVectorStore l (initializeVectorStore l s).2
    = initializeVectorStore l s.
Proof.
  intros Hall. rewrite !initializeVectorStore_unfold.
  by destruct (arrayMap_strings l Hall) as (ds & -> & _).
Qed.

Lemma initializeVectorStore_replaces_witness :
  Forall isString [JsString (js "apple"); JsString (js "")]
  ∧ initializeVectorStore [JsString (js "apple"); JsString (js "")] staleState
    = initializeVectorStore [JsString (js "apple"); JsString (js "")]
        initialState.
Proof.
  assert (H : Forall isString [JsString (js "apple"); JsString (js "")]).
  { repeat constructor; by eexists. }
  split; [exact H |].
  apply (initializeVectorStore_replaces _ staleState initialState H).
Defined.



(** X8. Appends of strings compose: two calls of [addDocuments] leave
    what one call on the concatenated batch leaves, and
    [initializeVectorStore] followed by [addDocuments] leaves what
    [initializeVectorStore] on the concatenated batch leaves. *)
Theorem addDocuments_composes (l1 l2 : list JsValue) (s : State) :
  Forall isString l1 → Forall isString l2 →
  addDocuments l2 (addDocuments l1 s).2 = addDocuments (l1 ++ l2) s
  ∧ (addDocuments l2 (initializeVectorStore l1 s).2).2
    = (initializeVectorStore (l1 ++ l2) s).2.
Proof.
  intros H1 H2.
  destruct (arrayMap_strings l1 H1) as (ds1 & E1 & _).
  destruct (arrayMap_strings l2 H2) as (ds2 & E2 & _).
  rewrite !addDocuments_unfold, !initializeVectorStore_unfold.
  rewrite (arrayMap_app _ _ _ _ E1 E2), E1. simpl. rewrite E2.
  rewrite ?rebuilt_storedDocs. by rewrite <- app_assoc.
Qed.

Lemma addDocuments_composes_witness :
  Forall isString [JsString (js "apple")]
  ∧ Forall isString [JsString (js "banana")]
  ∧ addDocuments [JsString (js "banana")]
      (addDocuments [JsString (js "apple")] initialState).2
    = addDocuments [JsString (js "apple"); JsString (js "banana")]
        initialState.
Proof.
  assert (H1 : Forall isString [JsString (js "apple")]).
  { repeat constructor; by eexists. }
  assert (H2 : Forall isString [JsString (js "banana")]).
  { repeat constructor; by eexists. }
  split; [exact H1 |]. split; [exact H2 |].
  apply (addDocuments_composes _ _ initialState H1 H2).
Defined.


(** X10. In every state of the module, also after a call that threw:
    each stored record holds the entry it was built from, a string or
    not, the tokens that [tokenize] returns on that entry, each a
    non-empty string of units of [[a-z0-9]], and their counts; no key of
    [dfMap] counts more records than are stored; and [avgDocLength] is
    not negative. *)
Theorem reachable_invariant (s : State) :
  reachable s →
  Forall (λ d, tokenize (pageContent d) = Returned (tokens d)
               ∧ Forall (λ t, t ≠ [] ∧ Forall (λ c, isTokenChar c = true) t)
                   (tokens d)
               ∧ termFreq d = countTerms (tokens d)) (storedDocs s)
  ∧ frequenciesBounded s
  ∧ (0 <= avgDocLength s)%R.
Proof.
  intros Hs. destruct (reachable_wellFormed s Hs) as [Hdocs Havg].
  split; [| split; [by apply reachable_frequenciesBounded | done]].
  eapply Forall_impl; [exact Hdocs |]. intros d [text H].
  apply makeRecord_Returned in H as (-> & Htoks & Hcounts).
  split; [done |]. split; [by eapply tokenize_tokens | done].
Qed.

Lemma reachable_invariant_witness :
  reachable (addDocuments [JsStringObject (js "Apple Pie"); JsNull]
               appleState).2
  ∧ map tokens
      (storedDocs (addDocuments [JsStringObject (js "Apple Pie"); JsNull]
                     appleState).2)
    = [[js "apple"]; [js "apple"; js "pie"]]
  ∧ frequenciesBounded
      (addDocuments [JsStringObject (js "Apple Pie"); JsNull] appleState).2
  ∧ (0 <= avgDocLength
            (addDocuments [JsStringObject (js "Apple Pie"); JsNull]
               appleState).2)%R.
Proof.
  assert (Hs : reachable
                 (addDocuments [JsStringObject (js "Apple Pie"); JsNull]
                    appleState).2).
  { exists [CallInitialize [JsString (js "apple")];
            CallAdd [JsStringObject (js "Apple Pie"); JsNull]].
    reflexivity. }
  split; [exact Hs |]. split; [reflexivity |].
  apply (reachable_invariant _ Hs).
Defined.

(** ** What a search returns *)

Section matches.

Open Scope R_scope.

Lemma termScore_nonneg s d t :
  0 <= avgDocLength s → frequenciesBounded s → 0 <= termScore s d t.
Proof.
  intros Havg Hdf.
  destruct (decide (getOr0 (termFreq d) t = 0%nat)) as [E|E].
  - rewrite termScore_absent by done. lra.
  - left. apply termScore_pos; [done | done | apply Hdf].
Qed.

Lemma sumR_nonneg l : Forall (λ x, 0 <= x) l → 0 <= sumR l.
Proof. induction 1; simpl; lra. Qed.

Lemma sumR_pos l x : Forall (λ x, 0 <= x) l → x ∈ l → 0 < x → 0 < sumR l.
Proof.
  intros Hl Hin Hx. induction Hl as [|y l Hy Hl IH]; [by inversion Hin |].
  apply elem_of_cons in Hin as [<-|Hin]; simpl.
  - pose proof (sumR_nonneg l Hl). lra.
  - specialize (IH Hin). lra.
Qed.

Lemma sumR_zero l : Forall (λ x, x = 0) l → sumR l = 0.
Proof. induction 1 as [|x l -> _ IH]; simpl; [done | rewrite IH; lra]. Qed.

(** In a state of the module, a record scores more than [0] when it
    holds a query token and [0] otherwise. *)
Lemma scoreDoc_sharesToken s Q d :
  0 <= avgDocLength s → frequenciesBounded s → madeRecord d →
  (sharesToken Q d → 0 < scoreDoc s Q d)
  ∧ (¬ sharesToken Q d → scoreDoc s Q d = 0).
Proof.
  intros Havg Hdf Hd. rewrite scoreDoc_sum. split.
  - intros (t & Hin & Ht)%Exists_exists.
    apply (sumR_pos _ (termScore s d t)).
    + apply Forall_fmap, Forall_forall. intros u _. by apply termScore_nonneg.
    + by apply (list_elem_of_fmap_2 (termScore s d)).
    + apply termScore_pos; [done | | apply Hdf].
      rewrite (madeRecord_termFreq _ _ Hd). by intros H0%occurrences_0.
  - intros Hno. apply sumR_zero, Forall_fmap, Forall_forall. intros t Hin.
    apply termScore_absent. rewrite (madeRecord_termFreq _ _ Hd).
    apply occurrences_0. intros Ht. apply Hno, Exists_exists. by exists t.
Qed.

Lemma filter_fmap_iff {A B} (f : A → B) (P : B → Prop) (Q : A → Prop)
    `{!∀ y, Decision (P y), !∀ x, Decision (Q x)} (l : list A) :
  Forall (λ x, P (f x) ↔ Q x) l → filter P (f <$> l) = f <$> filter Q l.
Proof.
  induction 1 as [|x l Hx _ IH]; [done |]. csimpl.
  destruct (decide (Q x)) as [HQ|HQ].
  - rewrite !filter_cons_True by tauto. csimpl. by rewrite IH.
  - rewrite !filter_cons_False by tauto. done.
Qed.

(** The scored records with a positive score are the records that hold
    a query token, in the order of the store. *)
Lemma scoreAll_positive s Q :
  0 <= avgDocLength s → frequenciesBounded s →
  Forall madeRecord (storedDocs s) →
  filter (λ e, 0 < score e) (scoreAll s Q)
  = (λ d, {| doc := d; score := scoreDoc s Q d |})
    <$> filter (sharesToken Q) (storedDocs s).
Proof.
  intros Havg Hdf Hdocs. unfold scoreAll.
  apply (filter_fmap_iff (λ d, {| doc := d; score := scoreDoc s Q d |})).
  eapply Forall_impl; [exact Hdocs |]. intros d Hd. simpl.
  destruct (scoreDoc_sharesToken s Q d Havg Hdf Hd) as [Hpos Hzero].
  split; [| exact Hpos].
  intros Hscore. destruct (decide (sharesToken Q d)) as [|Hno]; [done |].
  rewrite (Hzero Hno) in Hscore. lra.
Qed.

(** What [rank] keeps: a prefix of the positive entries, sorted. *)
Lemma rank_kept l k :
  take k (filter (λ e, 0 < score e) (sort compareScores l))
  ⊆+ filter (λ e, 0 < score e) l.
Proof.
  etrans; [apply sublist_submseteq, sublist_take |].
  apply Permutation_submseteq. by rewrite sort_Permutation.
Qed.

(** On a query that [tokenize] accepts, [searchDocuments] returns the
    ranking of the scored records: the two early returns agree with
    it. *)
Lemma searchDocuments_accepted query toks k s :
  tokenize query = Returned toks →
  searchDocuments query k s = (Returned (rank (scoreAll s toks) k), s).
Proof.
  intros Hq. destruct (storedDocs s) as [|d docs] eqn:Hs.
  { rewrite searchDocuments_empty_store by done.
    unfold scoreAll. rewrite Hs. by rewrite rank_nil. }
  unfold searchDocuments, bind, readStoredDocs, readState, lift, ret.
  rewrite Hs, Hq. simpl.
  destruct toks as [|t toks]; simpl; [by rewrite rank_no_token | done].
Qed.

Lemma searchDocuments_rejected query e k s :
  storedDocs s ≠ [] → tokenize query = Thrown e →
  searchDocuments query k s = (Thrown e, s).
Proof.
  intros Hs Hq.
  unfold searchDocuments, bind, readStoredDocs, readState, lift, ret.
  destruct (decide (length (storedDocs s) = 0%nat)) as [E|_].
  { destruct (storedDocs s); [done | discriminate E]. }
  by rewrite Hq.
Qed.

End matches.

(** X11. A search throws exactly when some record is stored and
    [tokenize] throws on the query, and it throws what [tokenize] throws:
    a [TypeError] when the query is [null], [undefined], a number, a
    boolean or an object without a method [toLowerCase].  On an empty
    store the query is not looked at.  On every query that [tokenize]
    accepts, a string or not, the search returns the ranking of the
    store against the tokens of the query. *)
Theorem searchDocuments_throws (query : JsValue) (k : nat) (s : State) :
  (∀ e, (searchDocuments query k s).1 = Thrown e
        ↔ storedDocs s ≠ [] ∧ tokenize query = Thrown e)
  ∧ (storedDocs s = [] → searchDocuments query k s = (Returned [], s))
  ∧ (∀ toks, tokenize query = Returned toks →
             searchDocuments query k s
             = (Returned (rank (scoreAll s toks) k), s))
  ∧ (storedDocs s ≠ [] → lacksToLowerCase query →
     searchDocuments query k s = (Thrown TypeError, s)).
Proof.
  split; [| split; [| split]].
  - intros e. destruct (storedDocs s) as [|d docs] eqn:Hs.
    + rewrite searchDocuments_empty_store by done. simpl.
      split; [done | by intros [? _]].
    + destruct (tokenize query) as [toks|e'] eqn:Hq.
      * rewrite (searchDocuments_accepted _ toks) by done. simpl.
        split; [done | by intros [_ ?]].
      * rewrite (searchDocuments_rejected _ e') by (done || by rewrite Hs).
        simpl. destruct e, e'. split; [done | by intros [_ ?]].
  - apply searchDocuments_empty_store.
  - intros toks Hq. by apply searchDocuments_accepted.
  - intros Hs Hq. apply searchDocuments_rejected; [done |].
    by apply lacksToLowerCase_rejected.
Qed.

Lemma searchDocuments_throws_witness :
  searchDocuments (JsStringObject (js "Banana?")) 1 appleState
  = (Returned (rank (scoreAll appleState [js "banana"]) 1), appleState)
  ∧ searchDocuments JsUndefined 5 appleState = (Thrown TypeError, appleState)
  ∧ searchDocuments JsUndefined 5 initialState = (Returned [], initialState).
Proof.
  destruct (searchDocuments_throws (JsStringObject (js "Banana?")) 1
              appleState) as (_ & _ & Haccepted & _).
  destruct (searchDocuments_throws JsUndefined 5 appleState)
    as (_ & _ & _ & Hthrows).
  destruct (searchDocuments_throws JsUndefined 5 initialState)
    as (_ & Hempty & _ & _).
  split; [| split].
  - apply Haccepted. reflexivity.
  - apply Hthrows; [| exact I].
    change (storedDocs appleState) with [appleDoc]. discriminate.
  - apply Hempty. reflexivity.
Defined.

(** X12. In every state of the module, a record built by the module
    scores more than [0] against a query exactly when it holds one of
    the query tokens, and [0] otherwise. *)
Theorem score_positive_iff_shared_token
    (s : State) (Q : list token) (d : Doc) :
  reachable s → madeRecord d →
  (0 < scoreDoc s Q d ↔ sharesToken Q d)%R
  ∧ (¬ sharesToken Q d → scoreDoc s Q d = 0%R).
Proof.
  intros Hs Hd. destruct (reachable_wellFormed s Hs) as [_ Havg].
  pose proof (reachable_frequenciesBounded s Hs) as Hdf.
  destruct (scoreDoc_sharesToken s Q d Havg Hdf Hd) as [Hpos Hzero].
  split; [| exact Hzero]. split; [| exact Hpos].
  intros Hscore. destruct (decide (sharesToken Q d)) as [|Hno]; [done |].
  rewrite (Hzero Hno) in Hscore. lra.
Qed.

Lemma score_positive_iff_shared_token_witness :
  reachable fruitState ∧ madeRecord appleBananaDoc
  ∧ (0 < scoreDoc fruitState [js "kiwi"; js "banana"] appleBananaDoc)%R.
Proof.
  assert (Hs : reachable fruitState).
  { exists [CallInitialize
              [JsString (js "apple banana"); JsString (js "banana")]].
    reflexivity. }
  assert (Hd : madeRecord appleBananaDoc).
  { exists (JsString (js "apple banana")). reflexivity. }
  split; [exact Hs |]. split; [exact Hd |].
  apply (score_positive_iff_shared_token fruitState
           [js "kiwi"; js "banana"] appleBananaDoc Hs Hd).
  apply Exists_cons_tl, Exists_cons_hd.
  apply list_elem_of_further, list_elem_of_here.
Defined.

(** The records a search returns, when the records are those the module
    builds and the statistics are in their bounds. *)
Lemma searchDocuments_matching (s : State) (q : jsstring) (k : nat) :
  (0 <= avgDocLength s)%R → frequenciesBounded s →
  Forall madeRecord (storedDocs s) →
  ∃ ds,
    searchDocuments (JsString q) k s
    = (Returned ((λ d, {| hitPageContent := pageContent d;
                          hitScore := scoreDoc s (tokenizeString q) d |})
                 <$> ds), s)
    ∧ ds ⊆+ filter (sharesToken (tokenizeString q)) (storedDocs s)
    ∧ length ds
      = k `min` length (filter (sharesToken (tokenizeString q))
                          (storedDocs s)).
Proof.
  intros Havg Hdf Hdocs.
  set (matching := filter (sharesToken (tokenizeString q)) (storedDocs s)).
  pose proof (scoreAll_positive s (tokenizeString q) Havg Hdf Hdocs) as Hpos.
  fold matching in Hpos.
  set (kept := take k (filter (λ e, 0 < score e)%R
                         (sort compareScores
                            (scoreAll s (tokenizeString q))))).
  pose proof (rank_kept (scoreAll s (tokenizeString q)) k) as Hkept.
  fold kept in Hkept. rewrite Hpos in Hkept.
  assert (Hsub : doc <$> kept ⊆+ matching).
  { rewrite Hkept. clear. induction matching as [|d l IH]; [done |].
    csimpl. by constructor. }
  assert (Hlen : length (doc <$> kept) = k `min` length matching).
  { rewrite length_fmap. unfold kept. rewrite length_take.
    rewrite sort_Permutation, Hpos. by rewrite length_fmap. }
  exists (doc <$> kept). split; [| split; done].
  rewrite searchDocuments_rank. do 2 f_equal. unfold rank. fold kept.
  rewrite <- list_fmap_compose. apply list_fmap_ext.
  intros i e He. unfold toHit. simpl. f_equal.
  assert (Hin : e ∈ (λ d, {| doc := d;
                             score := scoreDoc s (tokenizeString q) d |})
                    <$> matching).
  { eapply elem_of_submseteq; [| exact Hkept].
    by eapply list_elem_of_lookup_2. }
  apply list_elem_of_fmap in Hin as (d & -> & _). done.
Qed.

(** X13. In every state of the module, a search with a string returns
    stored records that hold a query token, none of them twice, each
    with its text and its score: as many as there are, up to [k].  So the
    result is empty exactly when [k] is [0] or no stored record holds a
    query token, and with [k] large enough every such record is
    returned. *)
Theorem search_returns_matching_records
    (s : State) (q : jsstring) (k : nat) :
  reachable s →
  let matching := filter (sharesToken (tokenizeString q)) (storedDocs s) in
  ∃ ds,
    searchDocuments (JsString q) k s
    = (Returned ((λ d, {| hitPageContent := pageContent d;
                          hitScore := scoreDoc s (tokenizeString q) d |})
                 <$> ds), s)
    ∧ ds ⊆+ matching
    ∧ length ds = k `min` length matching
    ∧ ((length matching <= k)%nat → ds ≡ₚ matching)
    ∧ (ds = [] ↔ k = 0%nat ∨ matching = []).
Proof.
  intros Hs matching.
  destruct (reachable_wellFormed s Hs) as [Hdocs Havg].
  pose proof (reachable_frequenciesBounded s Hs) as Hdf.
  destruct (searchDocuments_matching s q k Havg Hdf Hdocs)
    as (ds & Hsearch & Hsub & Hlen).
  fold matching in Hsub, Hlen.
  exists ds. split; [exact Hsearch |]. split; [exact Hsub |].
  split; [exact Hlen |]. split.
  - intros Hk. apply submseteq_length_Permutation; [done | lia].
  - split.
    + intros ->. simpl in Hlen.
      destruct k as [|k]; [by left | right].
      destruct matching; [done | simpl in Hlen; lia].
    + intros [->| Hnone]; [| rewrite Hnone in Hlen];
        destruct ds; simpl in Hlen; done || lia.
Qed.

Lemma search_returns_matching_records_witness :
  reachable fruitState
  ∧ ∃ ds,
      ds ≡ₚ filter (sharesToken (tokenizeString (js "Banana?")))
              (storedDocs fruitState)
      ∧ length ds = 2%nat.
Proof.
  assert (Hs : reachable fruitState).
  { exists [CallInitialize
              [JsString (js "apple banana"); JsString (js "banana")]].
    reflexivity. }
  split; [exact Hs |].
  destruct (search_returns_matching_records fruitState (js "Banana?") 5 Hs)
    as (ds & _ & _ & Hlen & Hall).
  exists ds. split; [apply Hall; vm_compute; lia | exact Hlen].
Defined.

(** ** The best [k] *)

Section best.

Open Scope R_scope.

(** Of two entries with positive scores, the second the greater, the
    first result is the second entry. *)
Lemma rank_two e1 e2 :
  0 < score e1 → score e1 < score e2 → rank [e1; e2] 1 = [toHit e2].
Proof.
  intros Hpos Hlt. unfold rank. cbn [sort insertSorted].
  unfold compareScores at 1.
  rewrite (decide_False (P := score e2 - score e1 <= 0)) by lra.
  rewrite filter_cons_True by lra.
  cbn [take firstn]. by rewrite take_0.
Qed.

(** Against [banana], the two records of [fruitState] score more than
    [0], and the shorter one scores more. *)
Lemma fruitState_banana_scores :
  0 < scoreDoc fruitState [js "banana"] appleBananaDoc
  ∧ scoreDoc fruitState [js "banana"] appleBananaDoc
    < scoreDoc fruitState [js "banana"] bananaDoc.
Proof.
  rewrite !scoreDoc_sum. cbn [map sumR foldr].
  rewrite !termScore_present by (vm_compute; lia).
  change (getOr0 (termFreq appleBananaDoc) (js "banana")) with 1%nat.
  change (getOr0 (termFreq bananaDoc) (js "banana")) with 1%nat.
  change (lengthOrOne (tokens appleBananaDoc)) with 2%nat.
  change (lengthOrOne (tokens bananaDoc)) with 1%nat.
  change (avgDocLength fruitState) with (INR 3 / INR 2).
  assert (Hidf : 0 < idf (length (storedDocs fruitState)) (dfMap fruitState)
                       (js "banana")).
  { apply idf_pos. vm_compute. lia. }
  set (x := idf _ _ _) in *.
  unfold denom, orOne, k1, b. cbn [INR].
  rewrite decide_False by lra.
  replace (1 * (1.5 + 1)
           / (1 + 1.5 * (1 - 0.75 + 0.75 * (1 + 1) / ((1 + 1 + 1) / (1 + 1)))))
    with (20 / 23) by lra.
  replace (1 * (1.5 + 1)
           / (1 + 1.5 * (1 - 0.75 + 0.75 * 1 / ((1 + 1 + 1) / (1 + 1)))))
    with (20 / 17) by lra.
  nra.
Qed.

End best.

(** X14. A search returns the best: no stored record that is left out of
    the result scores more than a record that is in it. *)
Theorem search_returns_the_best
    (s : State) (q : jsstring) (k : nat) (e : Scored) (h : Hit) :
  e ∈ scoreAll s (tokenizeString q) →
  h ∈ rank (scoreAll s (tokenizeString q)) k →
  searchDocuments (JsString q) k s
  = (Returned (rank (scoreAll s (tokenizeString q)) k), s)
  ∧ (toHit e ∈ rank (scoreAll s (tokenizeString q)) k
     ∨ (score e <= hitScore h)%R).
Proof.
  intros He Hh. split; [apply searchDocuments_rank |].
  unfold rank in *.
  set (F := filter (λ e, 0 < score e)%R
              (sort compareScores (scoreAll s (tokenizeString q)))) in *.
  apply list_elem_of_fmap in Hh as (e' & -> & He').
  assert (Hpos' : (0 < score e')%R).
  { apply elem_of_take in He' as (i & Hi & _).
    apply list_elem_of_lookup_2 in Hi.
    by apply list_elem_of_filter in Hi as [? _]. }
  destruct (decide (0 < score e)%R) as [Hpos|Hneg]; [| right; simpl; lra].
  assert (HF : e ∈ F).
  { apply list_elem_of_filter. split; [done |]. by rewrite sort_Permutation. }
  rewrite <- (take_drop k F) in HF.
  apply elem_of_app in HF as [Htake|Hdrop].
  - left. by apply list_elem_of_fmap_2.
  - right. simpl.
    assert (Hsorted : descending (take k F ++ drop k F)).
    { rewrite take_drop. eapply descending_sublist; [apply sublist_filter |].
      apply sort_descending. }
    apply (StronglySorted_app_1_elem_of _ _ _ _ _ Hsorted He' Hdrop).
Qed.

Lemma search_returns_the_best_witness :
  ∃ e h,
    e ∈ scoreAll fruitState (tokenizeString (js "banana"))
    ∧ rank (scoreAll fruitState (tokenizeString (js "banana"))) 1 = [h]
    ∧ ¬ (toHit e ∈ rank (scoreAll fruitState (tokenizeString (js "banana"))) 1)
    ∧ (score e <= hitScore h)%R.
Proof.
  pose (e1 := {| doc := appleBananaDoc;
                 score := scoreDoc fruitState [js "banana"] appleBananaDoc |}).
  pose (e2 := {| doc := bananaDoc;
                 score := scoreDoc fruitState [js "banana"] bananaDoc |}).
  destruct fruitState_banana_scores as [Hpos Hlt].
  assert (Hrank : rank (scoreAll fruitState (tokenizeString (js "banana"))) 1
                  = [toHit e2]).
  { change (scoreAll fruitState (tokenizeString (js "banana")))
      with [e1; e2].
    by apply rank_two. }
  assert (He : e1 ∈ scoreAll fruitState (tokenizeString (js "banana"))).
  { change (scoreAll fruitState (tokenizeString (js "banana")))
      with [e1; e2].
    apply list_elem_of_here. }
  assert (Hh : toHit e2
               ∈ rank (scoreAll fruitState (tokenizeString (js "banana"))) 1).
  { rewrite Hrank. apply list_elem_of_here. }
  assert (Hout : toHit e1
                 ∉ rank (scoreAll fruitState (tokenizeString (js "banana"))) 1).
  { rewrite Hrank. intros Hin%list_elem_of_singleton. discriminate Hin. }
  exists e1, (toHit e2). split; [exact He |]. split; [exact Hrank |].
  split; [exact Hout |].
  destruct (search_returns_the_best fruitState (js "banana") 1 e1 (toHit e2)
              He Hh) as [_ [Hin|Hle]]; [by destruct Hout | exact Hle].
Defined.

(** X15. Asking for fewer results gives the first of the results of
    asking for more: the search with [k] returns the first [k] entries of
    the search with [k + n]. *)
Theorem search_fewer_is_prefix (s : State) (q : jsstring) (k n : nat) :
  ∃ hits more,
    searchDocuments (JsString q) k s = (Returned hits, s)
    ∧ searchDocuments (JsString q) (k + n) s = (Returned more, s)
    ∧ hits = take k more.
Proof.
  exists (rank (scoreAll s (tokenizeString q)) k),
         (rank (scoreAll s (tokenizeString q)) (k + n)).
  split; [apply searchDocuments_rank |]. split; [apply searchDocuments_rank |].
  unfold rank. rewrite <- fmap_take, take_take. do 2 f_equal. lia.
Qed.

(** ** The shape of the score *)

Section shape.

Open Scope R_scope.

(** [tf * (k1 + 1) / denom], the factor of [idf] in a term. *)
Lemma factor_bounds avg dl tf :
  0 <= avg → (0 < tf)%nat →
  0 < INR tf * (k1 + 1) / denom avg dl tf < k1 + 1.
Proof.
  intros Havg Htf.
  pose proof (denom_pos avg dl tf Havg Htf) as Hden.
  pose proof (INR_pos tf Htf) as Htf'.
  assert (Hk : 0 < k1 + 1) by (unfold k1; lra).
  assert (Hlt : INR tf < denom avg dl tf).
  { unfold denom, k1, b. pose proof (pos_INR dl).
    pose proof (orOne_pos avg Havg).
    assert (0 <= 0.75 * INR dl / orOne avg).
    { unfold Rdiv. apply Rmult_le_pos; [lra |].
      left. by apply Rinv_0_lt_compat. }
    lra. }
  split.
  - unfold Rdiv. apply Rmult_lt_0_compat; [by apply Rmult_lt_0_compat |].
    by apply Rinv_0_lt_compat.
  - apply Rmult_lt_reg_r with (denom avg dl tf); [done |].
    unfold Rdiv. rewrite Rmult_assoc, Rinv_l by lra.
    rewrite Rmult_1_r, (Rmult_comm (INR tf)).
    by apply Rmult_lt_compat_l.
Qed.

Lemma lengthOrOne_mono l1 l2 :
  (length l1 <= length l2)%nat → (lengthOrOne l1 <= lengthOrOne l2)%nat.
Proof.
  unfold lengthOrOne. intros H.
  destruct (decide (length l1 = 0%nat)), (decide (length l2 = 0%nat)); lia.
Qed.

(** The factor grows with the term frequency and shrinks with the
    length. *)
Lemma factor_mono avg dl dl' tf tf' :
  0 <= avg → (0 < tf)%nat → (tf <= tf')%nat → (dl' <= dl)%nat →
  INR tf * (k1 + 1) / denom avg dl tf
  <= INR tf' * (k1 + 1) / denom avg dl' tf'.
Proof.
  intros Havg Htf Hle Hdl.
  assert (Htf' : (0 < tf')%nat) by lia.
  pose proof (denom_pos avg dl tf Havg Htf) as Hden.
  pose proof (denom_pos avg dl' tf' Havg Htf') as Hden'.
  apply le_INR in Hle. apply le_INR in Hdl.
  pose proof (INR_pos tf Htf) as Hx.
  pose proof (orOne_pos avg Havg) as Ho.
  pose proof (pos_INR dl') as Hdl'.
  set (K := k1 * (1 - b + b * INR dl / orOne avg)).
  set (K' := k1 * (1 - b + b * INR dl' / orOne avg)).
  assert (HD : denom avg dl tf = INR tf + K) by reflexivity.
  assert (HD' : denom avg dl' tf' = INR tf' + K') by reflexivity.
  assert (Hdiv : b * INR dl' / orOne avg <= b * INR dl / orOne avg).
  { unfold Rdiv, b. apply Rmult_le_compat_r; [| lra].
    left. by apply Rinv_0_lt_compat. }
  assert (Hdiv0 : 0 <= b * INR dl' / orOne avg).
  { unfold Rdiv, b. apply Rmult_le_pos; [lra |].
    left. by apply Rinv_0_lt_compat. }
  assert (HK : 0 <= K' <= K) by (unfold K, K', k1, b in *; lra).
  assert (Hcross : INR tf * K' <= INR tf' * K).
  { apply Rmult_le_compat; lra. }
  assert (Hk : 0 < k1 + 1) by (unfold k1; lra).
  apply Rmult_le_reg_r with (denom avg dl tf * denom avg dl' tf');
    [by apply Rmult_lt_0_compat |].
  replace (INR tf * (k1 + 1) / denom avg dl tf
           * (denom avg dl tf * denom avg dl' tf'))
    with (INR tf * (k1 + 1) * denom avg dl' tf') by (field; lra).
  replace (INR tf' * (k1 + 1) / denom avg dl' tf'
           * (denom avg dl tf * denom avg dl' tf'))
    with (INR tf' * (k1 + 1) * denom avg dl tf) by (field; lra).
  rewrite HD, HD'.
  replace (INR tf * (k1 + 1) * (INR tf' + K'))
    with ((k1 + 1) * (INR tf * INR tf' + INR tf * K')) by ring.
  replace (INR tf' * (k1 + 1) * (INR tf + K))
    with ((k1 + 1) * (INR tf * INR tf' + INR tf' * K)) by ring.
  apply Rmult_le_compat_l; lra.
Qed.

End shape.

(** X16. The score saturates: in every state of the module, a query token
    that a record holds adds more than [0] and less than [k1 + 1 = 2.5]
    times its [idf], however often the record holds it. *)
Theorem term_score_saturates (s : State) (d : Doc) (t : token) :
  reachable s → getOr0 (termFreq d) t ≠ 0%nat →
  (0 < termScore s d t
   < (1.5 + 1) * idf (length (storedDocs s)) (dfMap s) t)%R.
Proof.
  intros Hs Htf. destruct (reachable_wellFormed s Hs) as [_ Havg].
  pose proof (reachable_frequenciesBounded s Hs t) as Hdf.
  pose proof (idf_pos _ _ _ Hdf) as Hidf.
  rewrite termScore_present by done.
  destruct (factor_bounds (avgDocLength s) (lengthOrOne (tokens d))
              (getOr0 (termFreq d) t) Havg) as [Hlo Hhi]; [lia |].
  unfold k1 in Hhi. split.
  - by apply Rmult_lt_0_compat.
  - rewrite (Rmult_comm (1.5 + 1)). by apply Rmult_lt_compat_l.
Qed.

Lemma term_score_saturates_witness :
  reachable fruitState
  ∧ getOr0 (termFreq appleBananaDoc) (js "banana") ≠ 0%nat
  ∧ (0 < termScore fruitState appleBananaDoc (js "banana"))%R.
Proof.
  assert (Hs : reachable fruitState).
  { exists [CallInitialize
              [JsString (js "apple banana"); JsString (js "banana")]].
    reflexivity. }
  assert (Htf : getOr0 (termFreq appleBananaDoc) (js "banana") ≠ 0%nat).
  { vm_compute. lia. }
  split; [exact Hs |]. split; [exact Htf |].
  apply (term_score_saturates fruitState appleBananaDoc (js "banana") Hs Htf).
Defined.

(** X17. In every state of the module, against one query token a record
    that holds the token at least as often as another and is not longer
    scores at least as much. *)
Theorem more_occurrences_shorter_record_scores_higher
    (s : State) (t : token) (d1 d2 : Doc) :
  reachable s →
  (getOr0 (termFreq d1) t <= getOr0 (termFreq d2) t)%nat →
  (length (tokens d2) <= length (tokens d1))%nat →
  (scoreDoc s [t] d1 <= scoreDoc s [t] d2)%R.
Proof.
  intros Hs Htf Hlen. destruct (reachable_wellFormed s Hs) as [_ Havg].
  pose proof (reachable_frequenciesBounded s Hs) as Hdf.
  rewrite !scoreDoc_sum. simpl. rewrite !Rplus_0_r.
  destruct (decide (getOr0 (termFreq d1) t = 0%nat)) as [E|E].
  - rewrite (termScore_absent _ d1) by done. by apply termScore_nonneg.
  - rewrite !termScore_present by lia.
    apply Rmult_le_compat_l; [left; apply idf_pos, Hdf |].
    apply factor_mono; [done | lia | done | by apply lengthOrOne_mono].
Qed.

Lemma more_occurrences_shorter_record_scores_higher_witness :
  reachable fruitState
  ∧ (scoreDoc fruitState [js "banana"] appleBananaDoc
     <= scoreDoc fruitState [js "banana"]
          {| pageContent := JsString (js "banana");
             tokens := [js "banana"];
             termFreq := countTerms [js "banana"] |})%R.
Proof.
  assert (Hs : reachable fruitState).
  { exists [CallInitialize
              [JsString (js "apple banana"); JsString (js "banana")]].
    reflexivity. }
  split; [exact Hs |].
  apply (more_occurrences_shorter_record_scores_higher fruitState
           (js "banana") appleBananaDoc _ Hs).
  - vm_compute. lia.
  - vm_compute. lia.
Defined.

(** ** The tool *)

(** X18. The tool hands [func] its input string, and [func] reads the
    property [query] of its argument: a string has none, so whatever the
    input the tool searches for [undefined].  It answers the empty string
    on an empty store and throws a [TypeError] on any other store.
    Called with an object [{ query: q }], [q] a string, in a state of the
    module, [func] answers with stored texts joined by blank lines: the
    texts of records that hold a query token, as many as there are, up to
    five, and the empty string when there is none.  [func] does not
    write the state. *)
Theorem vectorDbTool_answer
    (numberToString : Z → jsstring) (s : State) (input q : jsstring) :
  (storedDocs s = [] → callTool numberToString input s = (Returned [], s))
  ∧ (storedDocs s ≠ [] →
     callTool numberToString input s = (Thrown TypeError, s))
  ∧ (reachable s →
     let matching := filter (sharesToken (tokenizeString q)) (storedDocs s) in
     ∃ ds,
       vectorDbToolFunc numberToString (ArgQuery (JsString q)) s
       = (Returned (join blankLine
                      ((λ d, elementText numberToString (pageContent d))
                       <$> ds)), s)
       ∧ ds ⊆+ matching
       ∧ length ds = 5 `min` length matching
       ∧ (matching = [] →
          vectorDbToolFunc numberToString (ArgQuery (JsString q)) s
          = (Returned [], s)))
  ∧ (∀ argument, (vectorDbToolFunc numberToString argument s).2 = s).
Proof.
  split; [| split; [| split]].
  - intros Hs. unfold callTool, vectorDbToolFunc, searchDocumentsDefault.
    unfold bind at 1. simpl. unfold bind.
    by rewrite searchDocuments_empty_store.
  - intros Hs. unfold callTool, vectorDbToolFunc, searchDocumentsDefault.
    unfold bind at 1. simpl. unfold bind.
    by rewrite (searchDocuments_rejected _ TypeError).
  - intros Hs matching.
    destruct (reachable_wellFormed s Hs) as [Hdocs Havg].
    pose proof (reachable_frequenciesBounded s Hs) as Hdf.
    destruct (searchDocuments_matching s q 5 Havg Hdf Hdocs)
      as (ds & Hsearch & Hsub & Hlen).
    fold matching in Hsub, Hlen.
    assert (Htool :
      vectorDbToolFunc numberToString (ArgQuery (JsString q)) s
      = (Returned (join blankLine
                     ((λ d, elementText numberToString (pageContent d))
                      <$> ds)), s)).
    { unfold vectorDbToolFunc, searchDocumentsDefault.
      unfold bind at 1. simpl. unfold bind.
      rewrite Hsearch. unfold ret. do 3 f_equal.
      clear. induction ds as [|d ds IH]; [done |]. csimpl. by rewrite <- IH. }
    exists ds. split; [exact Htool |]. split; [exact Hsub |].
    split; [exact Hlen |].
    intros Hnone. rewrite Htool. rewrite Hnone in Hlen.
    destruct ds; [done | simpl in Hlen; lia].
  - intros argument. unfold vectorDbToolFunc, searchDocumentsDefault.
    unfold bind at 1, lift.
    destruct (destructureQuery argument) as [query|e]; [| done].
    unfold bind.
    pose proof (searchDocuments_state query 5 s) as Hstate.
    destruct (searchDocuments query 5 s) as [[hits|[]] s']; simpl in *;
      subst s'; done.
Qed.

Lemma vectorDbTool_answer_witness :
  callTool (λ _, []) (js "banana") fruitState = (Thrown TypeError, fruitState)
  ∧ callTool (λ _, []) (js "banana") initialState
    = (Returned [], initialState)
  ∧ reachable fruitState
  ∧ ∃ ds,
      vectorDbToolFunc (λ _, []) (ArgQuery (JsString (js "banana"))) fruitState
      = (Returned (join blankLine
                     ((λ d, elementText (λ _, []) (pageContent d)) <$> ds)),
         fruitState)
      ∧ length ds = 2%nat.
Proof.
  assert (Hs : reachable fruitState).
  { exists [CallInitialize
              [JsString (js "apple banana"); JsString (js "banana")]].
    reflexivity. }
  destruct (vectorDbTool_answer (λ _, []) fruitState (js "banana")
              (js "banana")) as (_ & Hthrows & Hanswer & _).
  destruct (vectorDbTool_answer (λ _, []) initialState (js "banana")
              (js "banana")) as (Hempty & _ & _ & _).
  split; [| split; [| split]].
  - apply Hthrows.
    change (storedDocs fruitState) with [appleBananaDoc; bananaDoc].
    discriminate.
  - apply Hempty. reflexivity.
  - exact Hs.
  - destruct (Hanswer Hs) as (ds & Htool & _ & Hlen & _).
    exists ds. split; [exact Htool | exact Hlen].
Defined.
